(** * golib queues and the HTTP retry scheduler

    A shallow embedding of [queues.OrderedQueue], [queues.FIFOQueue], of
    the retry scheduler of the [httpclient] package and of the registry of
    workers of the [kafka] package, with the properties of their behaviour
    established on the embedding.

    Conventions.
    - A Go [int] index is a [Z].  Every index computed by the queue code is
      bounded by twice the length of a slice, and a slice of interface
      values is far shorter than [2^62], so index arithmetic never wraps and
      is written without a wrap-around.  The arithmetic of the retry
      delay, which is not bounded by a length, carries its wrap-around.
    - A slice is the list of its elements.  The nil slice and the empty
      slice are both the empty list: the queue code applies only [len],
      indexing, slicing, [range] and [append] to [q.queue], which do not
      tell them apart, and tests [nil == *queue] only together with
      [0 >= l] where [l] is the length.  Where a function returns the
      literal [nil] its result type says so.
    - A run-time panic (index or slice bounds out of range) is the outcome
      [Panic]; a loop given too little fuel ends in [Timeout]. *)

From Stdlib Require Import ZArith List Lia Bool String Sorted Permutation.
Import ListNotations.
Local Open Scope Z_scope.

(** ** Outcomes of Go code *)

Inductive result (A : Type) : Type :=
| Ok (a : A)
| Panic
| Timeout.

Arguments Ok {A} a.
Arguments Panic {A}.
Arguments Timeout {A}.

Definition bind {A B : Type} (r : result A) (k : A -> result B) : result B :=
  match r with
  | Ok a => k a
  | Panic => Panic
  | Timeout => Timeout
  end.

Notation "x <- c ;; k" := (bind c (fun x => k))
  (at level 61, c at next level, right associativity).

(** ** The element contract *)

(** Modelled from the spec: the declaration of the interface [IElement] is
    not among the sources; the queues call [GetID], [OrderingValue] and
    [DebugString] on it, and the spec gives their types (a string identity,
    an [int64] ordering value, a string for diagnostics). *)
Class IElement (E : Type) : Type := {
  GetID : E -> string;
  OrderingValue : E -> Z;
  DebugString : E -> string
}.

Inductive OrderingMode : Type :=
| OrderingAsc
| OrderingDesc.

(** ** Slices *)

Section Slices.
Context {E : Type}.

Definition len (s : list E) : Z := Z.of_nat (List.length s).

(** [s[i]]: panics unless [0 <= i < len(s)]. *)
Definition index (s : list E) (i : Z) : result E :=
  if (i <? 0) || (len s <=? i) then Panic
  else match nth_error s (Z.to_nat i) with
       | Some e => Ok e
       | None => Panic
       end.

(** [s[lo:hi]]: panics unless [0 <= lo <= hi <= len(s)].  Go allows [hi] up
    to the capacity, and the queues have two expressions whose [hi] can
    exceed the length: [q.queue[:idx]] in [CutBefore], followed at once by
    [q.queue[idx:]], which panics for every [idx] above the length; and
    [q.queue[:idx+1]] in [CutAfter], reached only after [q.queue[idx+1:]],
    which has panicked by then.  So the outcome of those functions is the
    same with this bound. *)
Definition slice (s : list E) (lo hi : Z) : result (list E) :=
  if (0 <=? lo) && (lo <=? hi) && (hi <=? len s)
  then Ok (firstn (Z.to_nat (hi - lo)) (skipn (Z.to_nat lo) s))
  else Panic.

(** [s[lo:]] *)
Definition slice_from (s : list E) (lo : Z) : result (list E) :=
  slice s lo (len s).

(** [s[:hi]] *)
Definition slice_to (s : list E) (hi : Z) : result (list E) :=
  slice s 0 hi.
End Slices.

(** ** OrderedQueue (package queues) *)

Module OrderedQueue.
Section Defs.
Context {E : Type} `{IElement E}.

Record t : Type := mk {
  queue : list E;
  ordering : OrderingMode
}.

Definition NewAscOrderingQueue : t := mk [] OrderingAsc.
Definition NewDescOrderingQueue : t := mk [] OrderingDesc.

(** The comparison made in the body of the search loop: does [item] go to
    the left of [e]? *)
Definition goesLeft (ordering : OrderingMode) (item e : E) : bool :=
  match ordering with
  | OrderingDesc => OrderingValue item >? OrderingValue e
  | OrderingAsc => OrderingValue item <? OrderingValue e
  end.

(** The loop [for idx < l { ... }] of [findOrderedQueueInsertingIndex];
    one unit of fuel per iteration. *)
Fixpoint insertingIndexLoop (fuel : nat) (queue : list E) (l : Z) (item : E)
    (ordering : OrderingMode) (idx originIdx minIdx maxIdx : Z) : result Z :=
  if negb (idx <? l) then Ok idx
  else match fuel with
       | O => Timeout
       | S fuel' =>
           e <- index queue idx ;;
           let left := goesLeft ordering item e in
           if left && (idx <=? 0) then Ok idx
           else
             let maxIdx' := if left then idx - 1 else maxIdx in
             let minIdx' := if left then minIdx else idx + 1 in
             let idx' := Z.quot (minIdx' + maxIdx' + 1) 2 in
             if idx' =? originIdx then Ok idx'
             else insertingIndexLoop fuel' queue l item ordering
                    idx' idx' minIdx' maxIdx'
       end.

Definition findOrderedQueueInsertingIndex (queue : list E) (l : Z) (item : E)
    (ordering : OrderingMode) : result Z :=
  if 0 >=? l then Ok 0
  else insertingIndexLoop (S (Z.to_nat l)) queue l item ordering
         (Z.quot l 2) (Z.quot l 2) 0 (l - 1).

Definition pushItemToOrderedQueue (queue : list E) (l : Z) (item : E)
    (ordering : OrderingMode) : result (list E) :=
  if 0 >=? l then Ok [item]
  else
    idx <- findOrderedQueueInsertingIndex queue l item ordering ;;
    if idx >=? l then Ok (queue ++ [item])
    else
      tails <- slice_from queue idx ;;
      heads <- slice queue 0 idx ;;
      Ok ((heads ++ [item]) ++ tails).

Definition Add (q : t) (item : E) : result t :=
  let ql := len (queue q) in
  queue' <- pushItemToOrderedQueue (queue q) ql item (ordering q) ;;
  Ok (mk queue' (ordering q)).

Definition Push (q : t) (item : E) : result (bool * t) :=
  q' <- Add q item ;;
  Ok (true, q').

(** [Pop] returns [(nil, false)] on an empty queue. *)
Definition Pop (q : t) : result ((option E * bool) * t) :=
  if len (queue q) <=? 0 then Ok ((None, false), q)
  else
    item <- index (queue q) 0 ;;
    rest <- slice_from (queue q) 1 ;;
    Ok ((Some item, true), mk ([] ++ rest) (ordering q)).

(** The loop [for i := 0; i < maxLen; i++ { items[i] = q.queue[i] }] run
    from [i] for [n] more rounds; [items] is the part filled so far. *)
Fixpoint copyItems (n : nat) (queue : list E) (i : Z) (items : list E)
    : result (list E) :=
  match n with
  | O => Ok items
  | S n' =>
      e <- index queue i ;;
      copyItems n' queue (i + 1) (items ++ [e])
  end.

(** The first component is [None] for the literal [nil]. *)
Definition PopMany (q : t) (maxResults : Z) : result ((option (list E) * Z) * t) :=
  let maxLen := len (queue q) in
  if (0 >=? maxLen) || (0 >=? maxResults) then Ok ((None, 0), q)
  else
    let maxLen := if maxLen >? maxResults then maxResults else maxLen in
    items <- copyItems (Z.to_nat maxLen) (queue q) 0 [] ;;
    rest <- slice_from (queue q) maxLen ;;
    Ok ((Some items, maxLen), mk ([] ++ rest) (ordering q)).

Definition First (q : t) : result (option E * bool) :=
  if len (queue q) <=? 0 then Ok (None, false)
  else
    item <- index (queue q) 0 ;;
    Ok (Some item, true).

Definition Elements (q : t) : list E := [] ++ queue q.

Definition GetSize (q : t) : Z := len (queue q).

(** The loop [for cursor < max { ...; cursor++ }] of [findElementIndex],
    for [n] more rounds; [None] when the loop ends without a match. *)
Fixpoint scanUp (n : nat) (queue : list E) (item : E) (cursor : Z)
    : result (option Z) :=
  match n with
  | O => Ok None
  | S n' =>
      e <- index queue cursor ;;
      if String.eqb (GetID item) (GetID e) then Ok (Some cursor)
      else scanUp n' queue item (cursor + 1)
  end.

(** The loop [for cursor > min { ...; cursor-- }]. *)
Fixpoint scanDown (n : nat) (queue : list E) (item : E) (cursor : Z)
    : result (option Z) :=
  match n with
  | O => Ok None
  | S n' =>
      e <- index queue cursor ;;
      if String.eqb (GetID item) (GetID e) then Ok (Some cursor)
      else scanDown n' queue item (cursor - 1)
  end.

Definition findElementIndex (q : t) (item : E) : result Z :=
  let l := len (queue q) in
  if 0 >=? l then Ok (-1)
  else
    idx <- findOrderedQueueInsertingIndex (queue q) l item (ordering q) ;;
    let cursor := idx in
    let max := idx + 2 in
    let min := idx - 2 in
    let max := if max >? l then l else max in
    let min := if -1 >? min then -1 else min in
    up <- scanUp (Z.to_nat (max - cursor)) (queue q) item cursor ;;
    match up with
    | Some found => Ok found
    | None =>
        let cursor := idx - 1 in
        down <- scanDown (Z.to_nat (cursor - min)) (queue q) item cursor ;;
        match down with
        | Some found => Ok found
        | None => Ok (-1)
        end
    end.

Definition Remove (q : t) (item : E) : result (bool * t) :=
  idx <- findElementIndex q item ;;
  if 0 >? idx then Ok (false, q)
  else
    heads <- slice (queue q) 0 idx ;;
    tails <- slice_from (queue q) (idx + 1) ;;
    Ok (true, mk (heads ++ tails) (ordering q)).

(** [GetOne] hands back its argument in both cases. *)
Definition GetOne (q : t) (item : E) : result (E * bool) :=
  idx <- findElementIndex q item ;;
  if 0 >? idx then Ok (item, false)
  else Ok (item, true).

Definition CutBefore (q : t) (idx : Z) : result (list E * t) :=
  if 0 >? idx then Ok ([], q)
  else if len (queue q) >=? idx then Ok (queue q, mk [] (ordering q))
  else
    cuts <- slice_to (queue q) idx ;;
    rest <- slice_from (queue q) idx ;;
    Ok (cuts, mk rest (ordering q)).

Definition CutAfter (q : t) (idx : Z) : result (list E * t) :=
  if 0 >? idx then Ok (queue q, mk [] (ordering q))
  else if len (queue q) >=? idx then Ok ([], q)
  else
    cuts <- slice_from (queue q) (idx + 1) ;;
    rest <- slice_to (queue q) (idx + 1) ;;
    Ok (cuts, mk rest (ordering q)).

(** [FindElements]: [cmp] is [None] for the nil pointer; otherwise it is the
    test [cmp.Evaluate], of package [definations], taken as a boolean
    function of the element.  The loop runs over the rest of the queue with
    the slice [elements] built so far. *)
Fixpoint findElementsLoop (rest : list E) (evaluate : E -> bool) (elements : list E)
    : list E :=
  match rest with
  | [] => elements
  | e :: rest' =>
      findElementsLoop rest' evaluate
        (if evaluate e then elements ++ [e] else elements)
  end.

Definition FindElements (q : t) (cmp : option (E -> bool)) : list E :=
  let elements := [] in
  match cmp with
  | None => elements
  | Some evaluate => findElementsLoop (queue q) evaluate elements
  end.

(** The loop [for _, e := range q.queue] of [GetElement]. *)
Fixpoint getElementLoop (rest : list E) (ID : string) : option E * bool :=
  match rest with
  | [] => (None, false)
  | e :: rest' =>
      if String.eqb (GetID e) ID then (Some e, true)
      else getElementLoop rest' ID
  end.

Definition GetElement (q : t) (ID : string) : option E * bool :=
  getElementLoop (queue q) ID.

Definition checkInsertBefore (e1 e2 : E) (ordering : OrderingMode) : bool :=
  match ordering with
  | OrderingDesc => OrderingValue e1 >? OrderingValue e2
  | OrderingAsc => OrderingValue e1 <? OrderingValue e2
  end.
End Defs.
Arguments t E : clear implicits.
End OrderedQueue.

(** ** FIFOQueue (package queues) *)

Module FIFOQueue.
Section Defs.
Context {E : Type} `{IElement E}.

Record t : Type := mk {
  queue : list E
}.

Definition NewFIFOQueue : t := mk [].

(** The nil queue and the empty queue give the same result, [[item]]. *)
Definition Push (q : t) (item : E) : bool * t :=
  (true, mk (queue q ++ [item])).

Definition Pop (q : t) : result ((option E * bool) * t) :=
  if len (queue q) <=? 0 then Ok ((None, false), q)
  else
    item <- index (queue q) 0 ;;
    rest <- slice_from (queue q) 1 ;;
    Ok ((Some item, true), mk ([] ++ rest)).

(** The copying loop of [PopMany], as in [OrderedQueue.copyItems]. *)
Fixpoint copyItems (n : nat) (queue : list E) (i : Z) (items : list E)
    : result (list E) :=
  match n with
  | O => Ok items
  | S n' =>
      e <- index queue i ;;
      copyItems n' queue (i + 1) (items ++ [e])
  end.

Definition PopMany (q : t) (maxResults : Z) : result ((option (list E) * Z) * t) :=
  let maxLen := len (queue q) in
  if (0 >=? maxLen) || (0 >=? maxResults) then Ok ((None, 0), q)
  else
    let maxLen := if maxLen >? maxResults then maxResults else maxLen in
    items <- copyItems (Z.to_nat maxLen) (queue q) 0 [] ;;
    rest <- slice_from (queue q) maxLen ;;
    Ok ((Some items, maxLen), mk ([] ++ rest)).

Definition Elements (q : t) : list E := [] ++ queue q.

Definition GetSize (q : t) : Z := len (queue q).

(** The loop [for i, e := range q.queue] of [Remove] over the part of the
    queue from position [i] on; [None] when no identity matches. *)
Fixpoint removeScan (rest : list E) (item : E) (i : Z) : option Z :=
  match rest with
  | [] => None
  | e :: rest' =>
      if String.eqb (GetID e) (GetID item) then Some i
      else removeScan rest' item (i + 1)
  end.

Definition Remove (q : t) (item : E) : result (bool * t) :=
  match removeScan (queue q) item 0 with
  | Some i =>
      heads <- slice (queue q) 0 i ;;
      tails <- slice_from (queue q) (i + 1) ;;
      Ok (true, mk (heads ++ tails))
  | None => Ok (false, q)
  end.

(** [GetOne] returns its argument when found and [nil] otherwise. *)
Definition GetOne (q : t) (item : E) : option E * bool :=
  match removeScan (queue q) item 0 with
  | Some _ => (Some item, true)
  | None => (None, false)
  end.

Definition CutBefore (q : t) (idx : Z) : result (list E * t) :=
  if 0 >? idx then Ok ([], q)
  else if len (queue q) >=? idx then Ok (queue q, mk [])
  else
    cuts <- slice_to (queue q) idx ;;
    rest <- slice_from (queue q) idx ;;
    Ok (cuts, mk rest).

Definition CutAfter (q : t) (idx : Z) : result (list E * t) :=
  if 0 >? idx then Ok (queue q, mk [])
  else if len (queue q) >=? idx then Ok ([], q)
  else
    cuts <- slice_from (queue q) (idx + 1) ;;
    rest <- slice_to (queue q) (idx + 1) ;;
    Ok (cuts, mk rest).

Definition First (q : t) : result (option E * bool) :=
  if len (queue q) <=? 0 then Ok (None, false)
  else
    item <- index (queue q) 0 ;;
    Ok (Some item, true).

(** [FindElements], as in [OrderedQueue.FindElements]. *)
Fixpoint findElementsLoop (rest : list E) (evaluate : E -> bool) (elements : list E)
    : list E :=
  match rest with
  | [] => elements
  | e :: rest' =>
      findElementsLoop rest' evaluate
        (if evaluate e then elements ++ [e] else elements)
  end.

Definition FindElements (q : t) (cmp : option (E -> bool)) : list E :=
  let elements := [] in
  match cmp with
  | None => elements
  | Some evaluate => findElementsLoop (queue q) evaluate elements
  end.

(** The loop [for _, e := range q.queue] of [GetElement]. *)
Fixpoint getElementLoop (rest : list E) (ID : string) : option E * bool :=
  match rest with
  | [] => (None, false)
  | e :: rest' =>
      if String.eqb (GetID e) ID then (Some e, true)
      else getElementLoop rest' ID
  end.

Definition GetElement (q : t) (ID : string) : option E * bool :=
  getElementLoop (queue q) ID.
End Defs.
Arguments t E : clear implicits.
End FIFOQueue.

(** ** The retry scheduler (package httpclient) *)

(** A Go [int] or [int64] value after an operation that may overflow: the
    two's-complement representative in 64 bits. *)
Definition wrap64 (z : Z) : Z := (z + 2 ^ 63) mod 2 ^ 64 - 2 ^ 63.

Definition max_int64 : Z := 2 ^ 63 - 1.

Definition RetryDurationFactor : Z := 5.

(** The options of a request.  [tlsOptions] and [proxies] point to structures
    of package [definations], which the scheduler only copies: each is an
    optional opaque name here, [None] for the nil pointer.  [timeouts] is a
    [time.Duration] in nanoseconds. *)
Record httpClientOption : Type := {
  headers : list (string * string);
  tlsOptions : option string;
  proxies : option string;
  timeouts : Z;
  retries : Z;
  shouldRetry : Z;
  successStatus : list (Z * bool)
}.

Definition defaultHTTPClientJSONOptions : httpClientOption :=
  {| headers := [("Content-Type", "application/json")]%string;
     tlsOptions := None;
     proxies := None;
     timeouts := 30 * 1000000000;
     retries := 0;
     shouldRetry := 0;
     successStatus := [] |}.

Record requestEntity : Type := {
  method : string;
  url : string;
  body : list Byte.byte;
  options : httpClientOption;
  triggerTimestamp : Z
}.

#[export] Instance requestEntity_IElement : IElement requestEntity := {
  GetID := url;
  OrderingValue := triggerTimestamp;
  DebugString := url
}.

Definition formatRetryDuration (retries : Z) : Z :=
  if retries <? 3 then RetryDurationFactor
  else wrap64 (RetryDurationFactor * retries).

(** The package state: [_pendingRequestsQueue], and whether
    [_pendingRequestsTimer] has been asked for ([go pendingRequestsTimer()]
    has run). *)
Record scheduler : Type := {
  pendingRequestsQueue : OrderedQueue.t requestEntity;
  pendingRequestsTimer : bool
}.

Definition newScheduler : scheduler :=
  {| pendingRequestsQueue := OrderedQueue.NewAscOrderingQueue;
     pendingRequestsTimer := false |}.

(** [afterQueryFailed]; [now] is the value of [time.Now().Unix()].  The log
    lines are left out.  [now.Add(retryDuration)] is left out too: its result
    is dropped, and [time.Time.Add] does not change its receiver. *)
Definition afterQueryFailed (method url : string) (body : list Byte.byte)
    (opts : httpClientOption) (now : Z) (st : scheduler) : result scheduler :=
  if shouldRetry opts >? 0 then
    if retries opts >=? shouldRetry opts then Ok st
    else
      let re := {| method := method;
                   url := url;
                   body := body;
                   options := opts;
                   triggerTimestamp := wrap64 (now + formatRetryDuration (retries opts)) |} in
      pushed <- OrderedQueue.Push (pendingRequestsQueue st) re ;;
      Ok {| pendingRequestsQueue := snd pushed;
            pendingRequestsTimer := true |}
  else Ok st.

(** What a request does once [HTTPQuery] is called is outside the program.
    The request succeeds; or it fails on a path that calls
    [afterQueryFailed], which is given the URL of the request that failed
    (the new location, after a redirect) and what [getQueryBodyBuffer] could
    still read of the request body; or it fails before it is sent, when no
    retry is scheduled; or the call panics. *)
Inductive roundTrip : Type :=
| Responded
| Failed (queryURL : string) (bodyBuffer : list Byte.byte)
| FailedUnsent
| Panicked.

Section Scheduler.
(** The outcome of sending a request, and the clock read by
    [afterQueryFailed] while a request is retried. *)
Variable transport : string -> string -> list Byte.byte -> httpClientOption -> roundTrip.
Variable clock : Z.

(** [HTTPQuery] as the scheduler sees it: [apply] stands for the options
    applied over [defaultHTTPClientJSONOptions]. *)
Definition HTTPQuery (method url : string) (body : list Byte.byte)
    (apply : httpClientOption -> httpClientOption) (st : scheduler)
    : result (bool * scheduler) :=
  let opts := apply defaultHTTPClientJSONOptions in
  match transport method url body opts with
  | Responded => Ok (true, st)
  | FailedUnsent => Ok (false, st)
  | Failed queryURL bodyBuffer =>
      st' <- afterQueryFailed method queryURL bodyBuffer opts clock st ;;
      Ok (false, st')
  | Panicked => Panic
  end.

(** The option built by [checkRetryEntity] for the retried request. *)
Definition retryOption (re : requestEntity) (o : httpClientOption) : httpClientOption :=
  {| headers := headers (options re);
     tlsOptions := tlsOptions (options re);
     proxies := proxies (options re);
     timeouts := timeouts (options re);
     retries := wrap64 (retries (options re) + 1);
     shouldRetry := shouldRetry (options re);
     successStatus := successStatus o |}.

(** [checkRetryEntity]; [item] is [None] when the type assertion of [item]
    to a pointer to [requestEntity] fails. *)
Definition checkRetryEntity (item : option requestEntity) (tim : Z) (st : scheduler)
    : result (bool * scheduler) :=
  match item with
  | None => Ok (true, st)
  | Some re =>
      if triggerTimestamp re <=? tim then
        r <- HTTPQuery (method re) (url re) (body re) (retryOption re) st ;;
        Ok (true, snd r)
      else
        pushed <- OrderedQueue.Push (pendingRequestsQueue st) re ;;
        Ok (false, {| pendingRequestsQueue := snd pushed;
                      pendingRequestsTimer := pendingRequestsTimer st |})
  end.

(** One tick of [pendingRequestsTimer]: the loop [for ok { ... }] run at
    tick time [now]; one unit of fuel per iteration. *)
Fixpoint tickLoop (fuel : nat) (now : Z) (st : scheduler) : result scheduler :=
  match fuel with
  | O => Timeout
  | S fuel' =>
      popped <- OrderedQueue.Pop (pendingRequestsQueue st) ;;
      let item := fst (fst popped) in
      let ok := snd (fst popped) in
      let st1 := {| pendingRequestsQueue := snd popped;
                    pendingRequestsTimer := pendingRequestsTimer st |} in
      if ok then
        checked <- checkRetryEntity item now st1 ;;
        if fst checked then tickLoop fuel' now (snd checked)
        else Ok (snd checked)
      else Ok st1
  end.

(** The consumer loop of [pendingRequestsTimer] over the ticks it
    receives, oldest first; nothing in it recovers from a panic. *)
Fixpoint consumerLoop (fuel : nat) (ticks : list Z) (st : scheduler) : result scheduler :=
  match ticks with
  | [] => Ok st
  | now :: ticks' =>
      st' <- tickLoop fuel now st ;;
      consumerLoop fuel ticks' st'
  end.
End Scheduler.

(** ** The orders the queue is meant to keep *)

Section Orders.
Context {E : Type} `{IElement E}.

(** [a] may stand before [b]: ordering values do not decrease
    (ascending), do not increase (descending). *)
Definition ordered (mode : OrderingMode) (a b : E) : Prop :=
  match mode with
  | OrderingAsc => OrderingValue a <= OrderingValue b
  | OrderingDesc => OrderingValue b <= OrderingValue a
  end.

(** Non-decreasing (ascending) or non-increasing (descending) by ordering
    value: every element may stand before every later one. *)
Definition sortedBy (mode : OrderingMode) (s : list E) : Prop :=
  StronglySorted (ordered mode) s.

(** The elements of ordering value [v], in the order they have in [s]. *)
Definition withValue (v : Z) (s : list E) : list E :=
  filter (fun e => OrderingValue e =? v) s.

(** The queue reached from the empty queue of a constructor by a sequence
    of [Add] calls. *)
Fixpoint addAll (q : OrderedQueue.t E) (items : list E) : result (OrderedQueue.t E) :=
  match items with
  | [] => Ok q
  | item :: items' =>
      q' <- OrderedQueue.Add q item ;;
      addAll q' items'
  end.

Definition newQueue (mode : OrderingMode) : OrderedQueue.t E :=
  match mode with
  | OrderingAsc => OrderedQueue.NewAscOrderingQueue
  | OrderingDesc => OrderedQueue.NewDescOrderingQueue
  end.

(** A position [p] that [findElementIndex] compares and finds to match,
    given the insertion index [est] of [item]: one of [est - 1], [est] and
    [est + 1] that exists and holds the identity of [item]. *)
Definition matchInWindow (s : list E) (item : E) (est p : Z) : Prop :=
  est - 1 <= p <= est + 1
  /\ exists e, index s p = Ok e /\ GetID item = GetID e.
End Orders.

(** ** Sample entries

    Retry entries that differ in their URL (their identity) and their
    trigger timestamp (their ordering value) only. *)

Definition entry (u : string) (ts : Z) : requestEntity :=
  {| method := "POST";
     url := u;
     body := [];
     options := defaultHTTPClientJSONOptions;
     triggerTimestamp := ts |}.

(** The values of a Go [int64] (and of an [int] on a 64-bit platform). *)
Definition inInt64 (z : Z) : Prop := - 2 ^ 63 <= z <= max_int64.

(** ** Goroutines calling [Add] and [Pop] on one ordered queue

    Each goroutine runs its calls one statement at a time; a schedule says
    which goroutine takes the next step.  [q.m.Lock()] can be taken only
    while the mutex is free, and a goroutine scheduled while it waits for
    the mutex, or after its last call, does nothing. *)

Section Goroutines.
Context {E : Type} `{IElement E}.

Inductive call : Type :=
| CallAdd (item : E)
| CallPop.

(** The statement a goroutine is about to run.  [Idle] is before
    [q.m.Lock()] of its next call; every other frame is inside a call, with
    the mutex held, and names the statement that comes next:
    - [AddLocked]: [ql := len(q.queue)];
    - [AddLen]: the call of [pushItemToOrderedQueue];
    - [AddPushed]: the store of its result to [q.queue];
    - [AddStored]: [q.m.Unlock()];
    - [PopLocked]: the test [len(q.queue) <= 0];
    - [PopEmpty]: [q.m.Unlock()] and the return of [(nil, false)];
    - [PopNonEmpty]: [item := q.queue[0]];
    - [PopItem]: the store of [q.queue[1:]] to [q.queue];
    - [PopStored]: [q.m.Unlock()] and the return of [(item, true)]. *)
Inductive frame : Type :=
| Idle
| AddLocked (item : E)
| AddLen (item : E) (ql : Z)
| AddPushed (item : E) (queue' : list E)
| AddStored
| PopLocked
| PopEmpty
| PopNonEmpty
| PopItem (item : E)
| PopStored (item : E).

Record goroutine : Type := {
  frameOf : frame;
  calls : list call;
  returned : list (option E * bool)
}.

(** The queue with its mutex. *)
Record shared : Type := {
  sharedQueue : OrderedQueue.t E;
  locked : bool
}.

Record system : Type := {
  memory : shared;
  goroutines : list goroutine
}.

Definition unlock (m : shared) : result shared :=
  if locked m then Ok {| sharedQueue := sharedQueue m; locked := false |}
  else Panic.

Definition stepGoroutine (m : shared) (g : goroutine) : result (shared * goroutine) :=
  let q := sharedQueue m in
  let goto f := Ok (m, {| frameOf := f; calls := calls g; returned := returned g |}) in
  match frameOf g with
  | Idle =>
      match calls g with
      | [] => Ok (m, g)
      | c :: cs =>
          if locked m then Ok (m, g)
          else Ok ({| sharedQueue := q; locked := true |},
                   {| frameOf := match c with
                                 | CallAdd item => AddLocked item
                                 | CallPop => PopLocked
                                 end;
                      calls := cs;
                      returned := returned g |})
      end
  | AddLocked item => goto (AddLen item (len (OrderedQueue.queue q)))
  | AddLen item ql =>
      queue' <- OrderedQueue.pushItemToOrderedQueue
                  (OrderedQueue.queue q) ql item (OrderedQueue.ordering q) ;;
      goto (AddPushed item queue')
  | AddPushed item queue' =>
      Ok ({| sharedQueue := OrderedQueue.mk queue' (OrderedQueue.ordering q);
             locked := locked m |},
          {| frameOf := AddStored; calls := calls g; returned := returned g |})
  | AddStored =>
      m' <- unlock m ;;
      Ok (m', {| frameOf := Idle; calls := calls g; returned := returned g |})
  | PopLocked =>
      if len (OrderedQueue.queue q) <=? 0 then goto PopEmpty else goto PopNonEmpty
  | PopEmpty =>
      m' <- unlock m ;;
      Ok (m', {| frameOf := Idle; calls := calls g;
                 returned := returned g ++ [(None, false)] |})
  | PopNonEmpty =>
      item <- index (OrderedQueue.queue q) 0 ;;
      goto (PopItem item)
  | PopItem item =>
      rest <- slice_from (OrderedQueue.queue q) 1 ;;
      Ok ({| sharedQueue := OrderedQueue.mk ([] ++ rest) (OrderedQueue.ordering q);
             locked := locked m |},
          {| frameOf := PopStored item; calls := calls g; returned := returned g |})
  | PopStored item =>
      m' <- unlock m ;;
      Ok (m', {| frameOf := Idle; calls := calls g;
                 returned := returned g ++ [(Some item, true)] |})
  end.

Fixpoint setNth {A : Type} (n : nat) (x : A) (l : list A) : list A :=
  match l, n with
  | [], _ => []
  | _ :: l', O => x :: l'
  | a :: l', S n' => a :: setNth n' x l'
  end.

(** Goroutine number [tid] takes a step. *)
Definition step (tid : nat) (sys : system) : result system :=
  match nth_error (goroutines sys) tid with
  | None => Ok sys
  | Some g =>
      r <- stepGoroutine (memory sys) g ;;
      Ok {| memory := fst r; goroutines := setNth tid (snd r) (goroutines sys) |}
  end.

Fixpoint run (schedule : list nat) (sys : system) : result system :=
  match schedule with
  | [] => Ok sys
  | tid :: schedule' =>
      sys' <- step tid sys ;;
      run schedule' sys'
  end.

(** A consumer that calls [Pop] [pops] times, and one producer for each
    item, which calls [Add] once, on a fresh ascending queue. *)
Definition start (items : list E) (pops : nat) : system :=
  {| memory := {| sharedQueue := OrderedQueue.NewAscOrderingQueue; locked := false |};
     goroutines :=
       {| frameOf := Idle; calls := repeat CallPop pops; returned := [] |}
       :: map (fun item => {| frameOf := Idle; calls := [CallAdd item]; returned := [] |})
              items |}.

Definition finishedGoroutine (g : goroutine) : bool :=
  match frameOf g, calls g with
  | Idle, [] => true
  | _, _ => false
  end.

(** Every goroutine has returned from its last call. *)
Definition finished (sys : system) : bool :=
  forallb finishedGoroutine (goroutines sys).

Fixpoint returnedItems (rs : list (option E * bool)) : list E :=
  match rs with
  | [] => []
  | (Some item, _) :: rs' => item :: returnedItems rs'
  | (None, _) :: rs' => returnedItems rs'
  end.

(** The elements the calls of [Pop] have returned, goroutine by goroutine. *)
Definition poppedBy (sys : system) : list E :=
  flat_map (fun g => returnedItems (returned g)) (goroutines sys).

(** [Pop] until the queue is empty, by one caller. *)
Fixpoint drain (fuel : nat) (q : OrderedQueue.t E) : result (list E) :=
  match fuel with
  | O => Timeout
  | S fuel' =>
      r <- OrderedQueue.Pop q ;;
      match fst r with
      | (Some item, true) =>
          items <- drain fuel' (snd r) ;;
          Ok (item :: items)
      | _ => Ok []
      end
  end.

(** The elements a goroutine answers for: those it has still to add and
    those it has taken out of the queue. *)
Definition frameHeld (f : frame) : list E :=
  match f with
  | AddLocked item | AddLen item _ | AddPushed item _ | PopStored item => [item]
  | _ => []
  end.

Fixpoint callsHeld (cs : list call) : list E :=
  match cs with
  | [] => []
  | CallAdd item :: cs' => item :: callsHeld cs'
  | CallPop :: cs' => callsHeld cs'
  end.

Definition held (g : goroutine) : list E :=
  frameHeld (frameOf g) ++ callsHeld (calls g) ++ returnedItems (returned g).

Definition idle (g : goroutine) : Prop := frameOf g = Idle.

(** What the frame of the goroutine that holds the mutex says about the
    queue. *)
Definition frameOK (q : OrderedQueue.t E) (f : frame) : Prop :=
  match f with
  | AddLen _ ql => ql = len (OrderedQueue.queue q)
  | AddPushed item queue' =>
      exists l1 l2,
        OrderedQueue.queue q = l1 ++ l2
        /\ queue' = l1 ++ item :: l2
        /\ sortedBy (OrderedQueue.ordering q) queue'
  | PopNonEmpty => 0 < len (OrderedQueue.queue q)
  | PopItem item => exists rest, OrderedQueue.queue q = item :: rest
  | _ => True
  end.

(** The invariant of every run from [start items pops]: the queue is
    sorted, the elements of the queue and those the goroutines answer for
    are the items, and the mutex is held by exactly the one goroutine
    that is inside a call, if any. *)
Definition consistent (items : list E) (sys : system) : Prop :=
  let q := sharedQueue (memory sys) in
  OrderedQueue.ordering q = OrderingAsc
  /\ sortedBy OrderingAsc (OrderedQueue.queue q)
  /\ Permutation (OrderedQueue.queue q ++ flat_map held (goroutines sys)) items
  /\ if locked (memory sys)
     then exists t1 g t2,
            goroutines sys = t1 ++ g :: t2
            /\ Forall idle t1 /\ Forall idle t2
            /\ frameOf g <> Idle /\ frameOK q (frameOf g)
     else Forall idle (goroutines sys).

(** The calls of [Pop] a goroutine accounts for: those that have returned,
    the one it is in, and those it has still to make. *)
Definition inPop (f : frame) : nat :=
  match f with
  | PopLocked | PopEmpty | PopNonEmpty | PopItem _ | PopStored _ => 1
  | _ => 0
  end.

Fixpoint callsPop (cs : list call) : nat :=
  match cs with
  | [] => 0
  | CallPop :: cs' => S (callsPop cs')
  | CallAdd _ :: cs' => callsPop cs'
  end.

Definition popCount (g : goroutine) : nat :=
  List.length (returned g) + inPop (frameOf g) + callsPop (calls g).

Definition popTotal (sys : system) : nat :=
  list_sum (map popCount (goroutines sys)).
End Goroutines.

(** ** Calls in a row *)

Section Compositions.
Context {E : Type} `{IElement E}.

(** [n] calls of [OrderedQueue.Pop] in a row, with the elements they
    returned, oldest call first. *)
Fixpoint popTimes (n : nat) (q : OrderedQueue.t E) : result (list E * OrderedQueue.t E) :=
  match n with
  | O => Ok ([], q)
  | S n' =>
      r <- OrderedQueue.Pop q ;;
      more <- popTimes n' (snd r) ;;
      Ok (match fst (fst r) with
          | Some item => item :: fst more
          | None => fst more
          end, snd more)
  end.

(** A sequence of [FIFOQueue.Push] calls. *)
Fixpoint pushAll (q : FIFOQueue.t E) (items : list E) : FIFOQueue.t E :=
  match items with
  | [] => q
  | item :: items' => pushAll (snd (FIFOQueue.Push q item)) items'
  end.

(** [FIFOQueue.Pop] until the queue is empty, by one caller. *)
Fixpoint drainFIFO (fuel : nat) (q : FIFOQueue.t E) : result (list E) :=
  match fuel with
  | O => Timeout
  | S fuel' =>
      r <- FIFOQueue.Pop q ;;
      match fst r with
      | (Some item, true) =>
          items <- drainFIFO fuel' (snd r) ;;
          Ok (item :: items)
      | _ => Ok []
      end
  end.
End Compositions.

(** The retry of entry [re] stays within the 64-bit integers when it fails
    at clock time [clock]: the incremented attempt count, the delay computed
    from it and the new trigger timestamp. *)
Definition retryFits (clock : Z) (re : requestEntity) : Prop :=
  let attemptCount := retries (options re) + 1 in
  inInt64 attemptCount
  /\ inInt64 (RetryDurationFactor * attemptCount)
  /\ inInt64 (clock + formatRetryDuration attemptCount).

(** The entry that a failed retry of [re] puts into the queue, when the
    failure is recorded for [queryURL] with the body [bodyBuffer] at clock
    time [clock]. *)
Definition retriedEntry (clock : Z) (re : requestEntity) (queryURL : string)
    (bodyBuffer : list Byte.byte) : requestEntity :=
  let opts := retryOption re defaultHTTPClientJSONOptions in
  {| method := method re;
     url := queryURL;
     body := bodyBuffer;
     options := opts;
     triggerTimestamp := clock + formatRetryDuration (retries opts) |}.

(** The test of [checkRetryEntity]: the entry is due at tick time [now]. *)
Definition due (now : Z) (re : requestEntity) : bool :=
  triggerTimestamp re <=? now.

(** The loop of one tick of [pendingRequestsTimer] at tick time [now], when
    the rounds of the loop need not agree on the outcome of sending nor on
    the time: round [i] of the loop sends with [transportOf i], and its
    failure, in [afterQueryFailed], reads [time.Now()] as [clockOf i].  A
    round calls [checkRetryEntity] once, which calls [HTTPQuery] at most
    once, which calls [afterQueryFailed] at most once, so that a round reads
    the clock at most once.  [round] is the number of the first round.
    With a constant [transportOf] and a constant [clockOf] this is
    [tickLoop]. *)
Fixpoint tickRounds
    (transportOf : nat -> string -> string -> list Byte.byte -> httpClientOption -> roundTrip)
    (clockOf : nat -> Z) (fuel : nat) (round : nat) (now : Z) (st : scheduler)
    : result scheduler :=
  match fuel with
  | O => Timeout
  | S fuel' =>
      popped <- OrderedQueue.Pop (pendingRequestsQueue st) ;;
      let item := fst (fst popped) in
      let ok := snd (fst popped) in
      let st1 := {| pendingRequestsQueue := snd popped;
                    pendingRequestsTimer := pendingRequestsTimer st |} in
      if ok then
        checked <- checkRetryEntity (transportOf round) (clockOf round) item now st1 ;;
        if fst checked then tickRounds transportOf clockOf fuel' (S round) now (snd checked)
        else Ok (snd checked)
      else Ok st1
  end.

(** ** The registry of Kafka workers (package kafka) *)

Module Kafka.

Record Config : Type := {
  Hosts : string;
  Partition : Z;
  PrivateTopic : string;
  GroupID : string;
  MaxPollIntervalMS : Z;
  MessageType : string;
  KerberosServiceName : string;
  KerberosKeytab : string;
  KerberosPrincipal : string;
  SaslMechanisms : string;
  SaslUsername : string;
  SaslPassword : string;
  UseOriginalContent : bool
}.

Definition withTopicAndGroup (config : Config) (topic group : string) : Config :=
  {| Hosts := Hosts config;
     Partition := Partition config;
     PrivateTopic := topic;
     GroupID := group;
     MaxPollIntervalMS := MaxPollIntervalMS config;
     MessageType := MessageType config;
     KerberosServiceName := KerberosServiceName config;
     KerberosKeytab := KerberosKeytab config;
     KerberosPrincipal := KerberosPrincipal config;
     SaslMechanisms := SaslMechanisms config;
     SaslUsername := SaslUsername config;
     SaslPassword := SaslPassword config;
     UseOriginalContent := UseOriginalContent config |}.

(** [s[:n]] on a string: panics when [s] is shorter than [n]. *)
Definition prefix (n : nat) (s : string) : result string :=
  if (n <=? String.length s)%nat then Ok (substring 0 n s) else Panic.

(** The changes [InitKafka] makes to its configuration before it builds a
    worker; [uuidTopic] and [uuidGroup] are the values that the calls of
    [utils.GenUUID] return. *)
Definition prepareConfig (config : Config) (uuidTopic uuidGroup : string) : result Config :=
  topic <- (if String.eqb (PrivateTopic config) ""
            then Ok ("rpc-" ++ uuidTopic)%string
            else
              short <- prefix 10 uuidTopic ;;
              Ok (PrivateTopic config ++ "-" ++ short)%string) ;;
  if String.eqb (MessageType config) "fanout"
  then Ok (withTopicAndGroup config "" uuidGroup)
  else Ok (withTopicAndGroup config topic (GroupID config)).

Section Registry.
(** The type [KafkaWorker], [NewKafkaWorker] and the [Config...] methods
    called on the producer and the consumer of a worker are not among the
    sources.  A worker is a parameter; [newWorker] is the worker that
    [InitKafka] builds and configures from the configuration it has
    prepared, and [stopConsumer] is the outcome of
    [instance.Consumer.StopConsumer()], which may panic. *)
Variable KafkaWorker : Type.
Variable newWorker : Config -> KafkaWorker.
Variable stopConsumer : KafkaWorker -> result unit.

(** The map [kafkaInstances]. *)
Definition instances : Type := string -> option KafkaWorker.

Definition noInstances : instances := fun _ => None.

Definition store (name : string) (w : KafkaWorker) (m : instances) : instances :=
  fun k => if String.eqb name k then Some w else m k.

Definition delete (name : string) (m : instances) : instances :=
  fun k => if String.eqb name k then None else m k.

Definition notFound (mqConnName : string) : string :=
  ("Kafka instance by " ++ mqConnName ++ " not found")%string.

(** The results are the worker (or the nil pointer) and the error (or
    nil). *)
Definition InitKafka (mqConnName : string) (config : Config)
    (uuidTopic uuidGroup : string) (kafkaInstances : instances)
    : result ((option KafkaWorker * option string) * instances) :=
  match kafkaInstances mqConnName with
  | None =>
      config' <- prepareConfig config uuidTopic uuidGroup ;;
      let instance := newWorker config' in
      Ok ((Some instance, None), store mqConnName instance kafkaInstances)
  | Some instance => Ok ((Some instance, None), kafkaInstances)
  end.

Definition GetKafka (mqConnName : string) (kafkaInstances : instances)
    : option KafkaWorker * option string :=
  match kafkaInstances mqConnName with
  | Some instance => (Some instance, None)
  | None => (None, Some (notFound mqConnName))
  end.

Definition StopKafka (mqConnName : string) (kafkaInstances : instances)
    : result (option string * instances) :=
  match kafkaInstances mqConnName with
  | Some instance =>
      _ <- stopConsumer instance ;;
      Ok (Some (notFound mqConnName), delete mqConnName kafkaInstances)
  | None => Ok (Some (notFound mqConnName), kafkaInstances)
  end.
End Registry.
End Kafka.

(** A sample configuration, with the private topic and the message type
    given. *)
Definition sampleConfig (topic messageType : string) : Kafka.Config :=
  {| Kafka.Hosts := "localhost:9092";
     Kafka.Partition := 0;
     Kafka.PrivateTopic := topic;
     Kafka.GroupID := "g";
     Kafka.MaxPollIntervalMS := 0;
     Kafka.MessageType := messageType;
     Kafka.KerberosServiceName := "";
     Kafka.KerberosKeytab := "";
     Kafka.KerberosPrincipal := "";
     Kafka.SaslMechanisms := "";
     Kafka.SaslUsername := "";
     Kafka.SaslPassword := "";
     Kafka.UseOriginalContent := false |}.
(** ** Facts on slices *)

Section SliceFacts.
Context {E : Type}.
Implicit Types s : list E.

Lemma len_nonneg s : 0 <= len s.
Proof. unfold len. lia. Qed.

Lemma len_app s1 s2 : len (s1 ++ s2) = len s1 + len s2.
Proof. unfold len. rewrite length_app. lia. Qed.

Lemma len_cons (e : E) s : len (e :: s) = len s + 1.
Proof. unfold len. simpl List.length. lia. Qed.

Lemma len_nil : len (@nil E) = 0.
Proof. reflexivity. Qed.

Lemma len_zero_nil s : len s <= 0 -> s = [].
Proof. destruct s; [reflexivity | rewrite len_cons; pose proof (len_nonneg s); lia]. Qed.

Lemma index_inv s i e :
  index s i = Ok e -> 0 <= i < len s /\ nth_error s (Z.to_nat i) = Some e.
Proof.
  unfold index. destruct (Z.ltb_spec i 0); simpl; [discriminate|].
  destruct (Z.leb_spec (len s) i); [discriminate|].
  destruct (nth_error s (Z.to_nat i)) eqn:Hn; [|discriminate].
  intros [= ->]. split; [lia | reflexivity].
Qed.

Lemma index_in_range s i :
  0 <= i < len s -> exists e, index s i = Ok e.
Proof.
  intros Hi. unfold index.
  destruct (Z.ltb_spec i 0); [lia|]. destruct (Z.leb_spec (len s) i); [lia|]. simpl.
  destruct (nth_error s (Z.to_nat i)) eqn:Hn; [eauto|].
  apply nth_error_None in Hn. unfold len in *. lia.
Qed.

Lemma index_app_left s1 s2 i :
  0 <= i < len s1 -> index (s1 ++ s2) i = index s1 i.
Proof.
  intros Hi. unfold index. rewrite len_app. pose proof (len_nonneg s2).
  destruct (Z.ltb_spec i 0); [lia|].
  destruct (Z.leb_spec (len s1 + len s2) i); [lia|].
  destruct (Z.leb_spec (len s1) i); [lia|]. simpl.
  rewrite nth_error_app1; [reflexivity | unfold len in *; lia].
Qed.

Lemma index_app_right s1 s2 i :
  len s1 <= i -> index (s1 ++ s2) i = index s2 (i - len s1).
Proof.
  intros Hi. unfold index. rewrite len_app. pose proof (len_nonneg s1).
  destruct (Z.ltb_spec i 0); [lia|]. destruct (Z.ltb_spec (i - len s1) 0); [lia|].
  simpl.
  destruct (Z.leb_spec (len s1 + len s2) i), (Z.leb_spec (len s2) (i - len s1));
    try lia; [reflexivity|].
  rewrite nth_error_app2; [|unfold len in *; lia].
  replace (Z.to_nat i - List.length s1)%nat with (Z.to_nat (i - len s1))
    by (unfold len; lia).
  reflexivity.
Qed.

Lemma index_head (e : E) s : index (e :: s) 0 = Ok e.
Proof.
  unfold index. rewrite len_cons. pose proof (len_nonneg s).
  destruct (Z.leb_spec (len s + 1) 0); [lia | reflexivity].
Qed.

Lemma index_In s i e : index s i = Ok e -> In e s.
Proof. intros Hi. apply index_inv in Hi as [_ Hn]. eapply nth_error_In; eauto. Qed.

Lemma slice_in_range s lo hi :
  0 <= lo -> lo <= hi -> hi <= len s ->
  slice s lo hi = Ok (firstn (Z.to_nat (hi - lo)) (skipn (Z.to_nat lo) s)).
Proof.
  intros. unfold slice.
  destruct (Z.leb_spec 0 lo), (Z.leb_spec lo hi), (Z.leb_spec hi (len s));
    try lia; reflexivity.
Qed.

Lemma slice_out_of_range s lo hi :
  lo < 0 \/ hi < lo \/ len s < hi -> slice s lo hi = Panic.
Proof.
  intros. unfold slice.
  destruct (Z.leb_spec 0 lo), (Z.leb_spec lo hi), (Z.leb_spec hi (len s));
    try lia; reflexivity.
Qed.

Lemma slice_to_app s1 s2 : slice (s1 ++ s2) 0 (len s1) = Ok s1.
Proof.
  pose proof (len_nonneg s1). pose proof (len_nonneg s2).
  rewrite slice_in_range; try lia; [|rewrite len_app; lia].
  simpl. rewrite Z.sub_0_r. unfold len. rewrite Nat2Z.id.
  rewrite firstn_app, Nat.sub_diag, firstn_all. simpl. now rewrite app_nil_r.
Qed.

Lemma slice_from_app s1 s2 : slice_from (s1 ++ s2) (len s1) = Ok s2.
Proof.
  pose proof (len_nonneg s1). pose proof (len_nonneg s2).
  unfold slice_from. rewrite slice_in_range; try lia; [|rewrite len_app; lia].
  rewrite len_app.
  replace (Z.to_nat (len s1 + len s2 - len s1)) with (List.length s2)
    by (unfold len; lia).
  unfold len at 1. rewrite Nat2Z.id.
  rewrite skipn_app, Nat.sub_diag, skipn_all. simpl. now rewrite firstn_all.
Qed.

(** Every in-range position splits the slice in two. *)
Lemma split_at s i :
  0 <= i <= len s ->
  exists s1 s2, s = s1 ++ s2 /\ len s1 = i.
Proof.
  intros Hi. exists (firstn (Z.to_nat i) s), (skipn (Z.to_nat i) s).
  split; [now rewrite firstn_skipn|].
  unfold len in *. rewrite length_firstn. lia.
Qed.
End SliceFacts.

(** ** The binary search of [findOrderedQueueInsertingIndex] *)

Section Search.
Context {E : Type} `{IElement E}.
Import OrderedQueue.

Variable queue : list E.
Variable item : E.
Variable mode : OrderingMode.

(** The loop ends, whatever the order of the queue, with an index between
    [0] and the length, provided the fuel covers the search window. *)
Lemma insertingIndexLoop_total (fuel : nat) :
  forall idx minIdx maxIdx,
    0 <= minIdx -> maxIdx <= len queue - 1 -> minIdx <= maxIdx + 1 ->
    idx = Z.quot (minIdx + maxIdx + 1) 2 ->
    maxIdx - minIdx + 2 <= Z.of_nat fuel ->
    exists r,
      insertingIndexLoop fuel queue (len queue) item mode idx idx minIdx maxIdx = Ok r
      /\ 0 <= r <= len queue.
Proof.
  induction fuel as [|fuel IH]; intros idx mn mx Hmn Hmx Hw Hidx Hfuel; [lia|].
  rewrite Z.quot_div_nonneg in Hidx by lia.
  assert (Hlo : mn <= idx) by (subst idx; Z.to_euclidean_division_equations; lia).
  assert (Hhi : idx <= mx + 1) by (subst idx; Z.to_euclidean_division_equations; lia).
  cbn [insertingIndexLoop].
  destruct (Z.ltb_spec idx (len queue)) as [Hlt|Hge]; cbn [negb];
    [|exists idx; split; [reflexivity | lia]].
  destruct (index_in_range queue idx) as [e He]; [lia|].
  rewrite He. cbn [bind].
  destruct (goesLeft mode item e); cbn [andb].
  - destruct (Z.leb_spec idx 0); [exists idx; split; [reflexivity | lia]|].
    rewrite Z.quot_div_nonneg by lia.
    destruct (Z.eqb_spec ((mn + (idx - 1) + 1) / 2) idx) as [Heq|Hne].
    + rewrite Heq. exists idx; split; [reflexivity | lia].
    + apply IH; try lia.
      * now rewrite Z.quot_div_nonneg by lia.
      * assert (idx <= mx); [|lia].
        subst idx. Z.to_euclidean_division_equations. lia.
  - rewrite Z.quot_div_nonneg by lia.
    destruct (Z.eqb_spec ((idx + 1 + mx + 1) / 2) idx) as [Heq|Hne].
    + rewrite Heq. exists idx; split; [reflexivity | lia].
    + assert (idx <= mx) by (subst idx; Z.to_euclidean_division_equations; lia).
      apply IH; try lia.
      now rewrite Z.quot_div_nonneg by lia.
Qed.

(** [findOrderedQueueInsertingIndex] returns, on every queue. *)
Lemma findOrderedQueueInsertingIndex_total :
  exists r,
    findOrderedQueueInsertingIndex queue (len queue) item mode = Ok r
    /\ 0 <= r <= len queue.
Proof.
  unfold findOrderedQueueInsertingIndex. pose proof (len_nonneg queue).
  destruct (Z.geb_spec 0 (len queue)); [exists 0; split; [reflexivity | lia]|].
  apply insertingIndexLoop_total; try lia.
  f_equal. lia.
Qed.

(** When the elements that [item] goes left of are exactly those from
    position [p] on, the loop finds [p]. *)
Section Partitioned.
Variable p : Z.
Hypothesis p_range : 0 <= p <= len queue.
Hypothesis p_splits :
  forall j e, index queue j = Ok e -> goesLeft mode item e = (p <=? j).

Lemma insertingIndexLoop_partitioned (fuel : nat) :
  forall idx minIdx maxIdx,
    0 <= minIdx -> maxIdx <= len queue - 1 ->
    minIdx <= p <= maxIdx + 1 ->
    idx = Z.quot (minIdx + maxIdx + 1) 2 ->
    maxIdx - minIdx + 2 <= Z.of_nat fuel ->
    insertingIndexLoop fuel queue (len queue) item mode idx idx minIdx maxIdx = Ok p.
Proof.
  induction fuel as [|fuel IH]; intros idx mn mx Hmn Hmx Hp Hidx Hfuel; [lia|].
  rewrite Z.quot_div_nonneg in Hidx by lia.
  assert (Hlo : mn <= idx) by (subst idx; Z.to_euclidean_division_equations; lia).
  assert (Hhi : idx <= mx + 1) by (subst idx; Z.to_euclidean_division_equations; lia).
  cbn [insertingIndexLoop].
  destruct (Z.ltb_spec idx (len queue)) as [Hlt|Hge]; cbn [negb];
    [|f_equal; subst idx; Z.to_euclidean_division_equations; lia].
  destruct (index_in_range queue idx) as [e He]; [lia|].
  rewrite He. cbn [bind]. rewrite (p_splits _ _ He).
  destruct (Z.leb_spec p idx) as [Hle|Hgt]; cbn [andb].
  - destruct (Z.leb_spec idx 0); [f_equal; lia|].
    rewrite Z.quot_div_nonneg by lia.
    destruct (Z.eqb_spec ((mn + (idx - 1) + 1) / 2) idx) as [Heq|Hne].
    + f_equal. Z.to_euclidean_division_equations. lia.
    + apply IH; try lia.
      * now rewrite Z.quot_div_nonneg by lia.
      * assert (idx <= mx); [|lia].
        subst idx. Z.to_euclidean_division_equations. lia.
  - rewrite Z.quot_div_nonneg by lia.
    destruct (Z.eqb_spec ((idx + 1 + mx + 1) / 2) idx) as [Heq|Hne].
    + exfalso. Z.to_euclidean_division_equations. lia.
    + apply IH; try lia.
      now rewrite Z.quot_div_nonneg by lia.
Qed.

Lemma findOrderedQueueInsertingIndex_partitioned :
  findOrderedQueueInsertingIndex queue (len queue) item mode = Ok p.
Proof.
  unfold findOrderedQueueInsertingIndex.
  destruct (Z.geb_spec 0 (len queue)); [f_equal; lia|].
  apply insertingIndexLoop_partitioned; try lia.
  f_equal. lia.
Qed.
End Partitioned.
End Search.

(** ** Insertion into an ordered queue *)

Section AddFacts.
Context {E : Type} `{IElement E}.
Import OrderedQueue.

Lemma goesLeft_false_ordered mode (item e : E) :
  goesLeft mode item e = false -> ordered mode e item.
Proof. destruct mode; simpl; lia. Qed.

Lemma goesLeft_true_strict mode (item e : E) :
  goesLeft mode item e = true ->
  ordered mode item e /\ OrderingValue e <> OrderingValue item.
Proof. destruct mode; simpl; lia. Qed.

Lemma ordered_goesLeft_mono mode (item a b : E) :
  ordered mode a b -> goesLeft mode item a = true -> goesLeft mode item b = true.
Proof. destruct mode; simpl; lia. Qed.

Lemma ordered_trans mode (a b c : E) :
  ordered mode a b -> ordered mode b c -> ordered mode a c.
Proof. destruct mode; simpl; lia. Qed.

(** In a sorted queue the elements that [item] goes left of form a tail. *)
Lemma sorted_partition mode (item : E) (s : list E) :
  sortedBy mode s ->
  exists l1 l2,
    s = l1 ++ l2
    /\ Forall (fun e => goesLeft mode item e = false) l1
    /\ Forall (fun e => goesLeft mode item e = true) l2.
Proof.
  induction 1 as [|a s Hs IH Ha].
  - exists [], []. repeat split; constructor.
  - destruct (goesLeft mode item a) eqn:Hleft.
    + exists [], (a :: s). repeat split; [constructor|].
      constructor; [assumption|].
      eapply Forall_impl; [|exact Ha].
      intros b Hab. eapply ordered_goesLeft_mono; eauto.
    + destruct IH as (l1 & l2 & -> & H1 & H2).
      exists (a :: l1), l2. repeat split; [constructor|]; assumption.
Qed.

Lemma partition_index mode (item : E) (l1 l2 : list E) :
  Forall (fun e => goesLeft mode item e = false) l1 ->
  Forall (fun e => goesLeft mode item e = true) l2 ->
  forall j e, index (l1 ++ l2) j = Ok e -> goesLeft mode item e = (len l1 <=? j).
Proof.
  intros H1 H2 j e Hj.
  destruct (Z.leb_spec (len l1) j) as [Hle|Hlt].
  - rewrite index_app_right in Hj by assumption.
    apply index_In in Hj. rewrite Forall_forall in H2. auto.
  - pose proof (index_inv _ _ _ Hj) as [Hr _].
    rewrite index_app_left in Hj by lia.
    apply index_In in Hj. rewrite Forall_forall in H1. auto.
Qed.

(** [pushItemToOrderedQueue] puts [item] at the head of that tail. *)
Lemma pushItemToOrderedQueue_partitioned mode (item : E) (l1 l2 : list E) :
  Forall (fun e => goesLeft mode item e = false) l1 ->
  Forall (fun e => goesLeft mode item e = true) l2 ->
  pushItemToOrderedQueue (l1 ++ l2) (len (l1 ++ l2)) item mode
  = Ok (l1 ++ item :: l2).
Proof.
  intros H1 H2. unfold pushItemToOrderedQueue.
  pose proof (len_nonneg l1). pose proof (len_nonneg l2).
  destruct (Z.geb_spec 0 (len (l1 ++ l2))) as [Hz|Hpos].
  - rewrite len_app in Hz.
    rewrite (len_zero_nil l1), (len_zero_nil l2) by lia. reflexivity.
  - rewrite (findOrderedQueueInsertingIndex_partitioned (l1 ++ l2) item mode (len l1));
      [|rewrite len_app; lia | now apply partition_index].
    cbn [bind].
    destruct (Z.geb_spec (len l1) (len (l1 ++ l2))) as [Hend|Hmid].
    + rewrite len_app in Hend. rewrite (len_zero_nil l2) by lia.
      now rewrite app_nil_r.
    + rewrite slice_from_app. cbn [bind].
      rewrite slice_to_app. cbn [bind].
      now rewrite <- app_assoc.
Qed.

Lemma sortedBy_app_inv mode (l1 l2 : list E) :
  sortedBy mode (l1 ++ l2) ->
  sortedBy mode l1 /\ sortedBy mode l2
  /\ Forall (fun a => Forall (ordered mode a) l2) l1.
Proof.
  unfold sortedBy. induction l1 as [|a l1 IH]; simpl; intros Hs.
  - repeat split; [constructor | assumption | constructor].
  - apply StronglySorted_inv in Hs as [Hs Ha].
    destruct (IH Hs) as (S1 & S2 & F).
    apply Forall_app in Ha as [Ha1 Ha2].
    repeat split; [constructor | | constructor]; assumption.
Qed.

Lemma sortedBy_app mode (l1 l2 : list E) :
  sortedBy mode l1 -> sortedBy mode l2 ->
  Forall (fun a => Forall (ordered mode a) l2) l1 ->
  sortedBy mode (l1 ++ l2).
Proof.
  unfold sortedBy. induction l1 as [|a l1 IH]; simpl; intros S1 S2 F; [assumption|].
  apply StronglySorted_inv in S1 as [S1 Ha].
  apply Forall_cons_iff in F as [Fa F].
  constructor; [now apply IH|].
  apply Forall_app. split; assumption.
Qed.

(** Putting [item] between the two parts keeps the queue sorted. *)
Lemma sortedBy_insert mode (item : E) (l1 l2 : list E) :
  sortedBy mode (l1 ++ l2) ->
  Forall (fun e => ordered mode e item) l1 ->
  Forall (fun e => ordered mode item e) l2 ->
  sortedBy mode (l1 ++ item :: l2).
Proof.
  intros Hs H1 H2. apply sortedBy_app_inv in Hs as (S1 & S2 & F).
  apply sortedBy_app; [assumption | constructor; assumption|].
  rewrite Forall_forall in *. intros a Ha.
  constructor; [now apply H1|]. now apply F.
Qed.

(** One [Add] on a sorted queue: the new element goes after every element
    that may stand before it (those of equal ordering value among them) and
    before the others, which keep their places relative to each other. *)
Lemma Add_sorted (q : t E) (item : E) :
  sortedBy (ordering q) (queue q) ->
  exists l1 l2,
    queue q = l1 ++ l2
    /\ Forall (fun e => ordered (ordering q) e item) l1
    /\ Forall (fun e => ordered (ordering q) item e
                        /\ OrderingValue e <> OrderingValue item) l2
    /\ Add q item = Ok (mk (l1 ++ item :: l2) (ordering q))
    /\ sortedBy (ordering q) (l1 ++ item :: l2).
Proof.
  intros Hs.
  destruct (sorted_partition (ordering q) item (queue q) Hs) as (l1 & l2 & Hq & H1 & H2).
  assert (F1 : Forall (fun e => ordered (ordering q) e item) l1)
    by (eapply Forall_impl; [|exact H1]; intros; now apply goesLeft_false_ordered).
  assert (F2 : Forall (fun e => ordered (ordering q) item e
                                /\ OrderingValue e <> OrderingValue item) l2)
    by (eapply Forall_impl; [|exact H2]; intros; now apply goesLeft_true_strict).
  exists l1, l2. repeat split; try assumption.
  - unfold Add. rewrite Hq.
    rewrite pushItemToOrderedQueue_partitioned by assumption. reflexivity.
  - apply sortedBy_insert; [now rewrite <- Hq | assumption|].
    eapply Forall_impl; [|exact F2]. now intros e [He _].
Qed.

Lemma withValue_app (v : Z) (s1 s2 : list E) :
  withValue v (s1 ++ s2) = withValue v s1 ++ withValue v s2.
Proof. apply filter_app. Qed.

(** Inserting [item] before elements of other ordering values puts it last
    among the elements of its own value. *)
Lemma withValue_insert (v : Z) (item : E) (l1 l2 : list E) :
  Forall (fun e => OrderingValue e <> OrderingValue item) l2 ->
  withValue v (l1 ++ item :: l2) = withValue v (l1 ++ l2) ++ withValue v [item].
Proof.
  intros Hl2. unfold withValue. rewrite !filter_app. cbn [filter].
  destruct (Z.eqb_spec (OrderingValue item) v) as [Hv|Hv].
  - assert (Hnone : filter (fun e => OrderingValue e =? v) l2 = []).
    { clear -Hl2 Hv. induction Hl2 as [|e l2 He Hl2 IH]; simpl; [reflexivity|].
      destruct (Z.eqb_spec (OrderingValue e) v); [lia | assumption]. }
    rewrite Hnone. cbn. now rewrite !app_nil_r.
  - now rewrite !app_nil_r.
Qed.

(** A sequence of [Add] calls on a sorted queue succeeds and leaves the
    queue sorted, in the same mode; the queue gains the items, those of each
    ordering value behind the ones it had and in the order of the calls. *)
Lemma addAll_sorted (items : list E) :
  forall q : t E,
    sortedBy (ordering q) (queue q) ->
    exists q',
      addAll q items = Ok q'
      /\ ordering q' = ordering q
      /\ sortedBy (ordering q) (queue q')
      /\ Permutation (queue q') (queue q ++ items)
      /\ forall v, withValue v (queue q') = withValue v (queue q ++ items).
Proof.
  induction items as [|item items IH]; intros q Hs; simpl.
  - exists q. rewrite app_nil_r. repeat split; auto.
  - destruct (Add_sorted q item Hs) as (l1 & l2 & Hq & _ & Hl2 & Hadd & Hs').
    rewrite Hadd. cbn [bind].
    destruct (IH (mk (l1 ++ item :: l2) (ordering q)) Hs')
      as (q' & Hq' & Ho & Hsq' & Hperm & Hstable).
    cbn [queue ordering] in *.
    exists q'. repeat split; try assumption.
    + rewrite Hperm, Hq.
      change (item :: items) with ([item] ++ items). rewrite !app_assoc.
      apply Permutation_app_tail. rewrite <- app_assoc.
      apply Permutation_app_head. apply Permutation_cons_append.
    + intros v. rewrite Hstable, Hq.
      change (item :: items) with ([item] ++ items).
      rewrite (withValue_app v (l1 ++ item :: l2) items).
      rewrite (withValue_app v (l1 ++ l2) ([item] ++ items)).
      rewrite (withValue_app v [item] items).
      rewrite (withValue_insert v item l1 l2)
        by (eapply Forall_impl; [|exact Hl2]; now intros e [_ He]).
      now rewrite <- app_assoc.
Qed.

Lemma newQueue_sorted mode :
  ordering (newQueue (E:=E) mode) = mode
  /\ sortedBy mode (queue (newQueue (E:=E) mode)).
Proof. destruct mode; split; try reflexivity; constructor. Qed.

(** C1. Whatever elements are added, in whatever order, to a fresh
    ascending (descending) queue, every call succeeds and [Elements()] is
    non-decreasing (non-increasing) in [OrderingValue]; it holds the
    elements added, and those of any one ordering value stand in the order in
    which they were added.  One more [Add] places its element after all
    elements that are already there with an ordering value that is equal or
    that sorts before it, and before all others, and leaves the elements
    already there in their relative order. *)
Theorem Add_sorted_and_stable (mode : OrderingMode) (items : list E) :
  exists q : t E,
    addAll (newQueue mode) items = Ok q
    /\ ordering q = mode
    /\ sortedBy mode (Elements q)
    /\ Permutation (Elements q) items
    /\ (forall v, withValue v (Elements q) = withValue v items)
    /\ forall item : E,
         exists before after (q' : t E),
           Elements q = before ++ after
           /\ Forall (fun e => ordered mode e item) before
           /\ Forall (fun e => ordered mode item e
                               /\ OrderingValue e <> OrderingValue item) after
           /\ Add q item = Ok q'
           /\ Elements q' = before ++ item :: after
           /\ sortedBy mode (Elements q').
Proof.
  destruct (newQueue_sorted mode) as [Hmode Hnew].
  destruct (addAll_sorted items (newQueue mode)) as (q & Hq & Ho & Hs & Hperm & Hstable);
    [now rewrite Hmode|].
  rewrite Hmode in Ho, Hs.
  assert (Hempty : queue (newQueue (E:=E) mode) = []) by (destruct mode; reflexivity).
  rewrite Hempty in Hperm, Hstable. cbn [app] in Hperm, Hstable.
  exists q. repeat split; try assumption.
  intros item.
  destruct (Add_sorted q item) as (l1 & l2 & Hsplit & F1 & F2 & Hadd & Hs');
    [now rewrite Ho|].
  rewrite Ho in *.
  exists l1, l2, (mk (l1 ++ item :: l2) mode).
  repeat split; assumption.
Qed.
End AddFacts.

(** ** PopMany *)

Section PopManyFacts.
Context {E : Type} `{IElement E}.

Lemma skipn_index (s : list E) (i : Z) (e : E) :
  index s i = Ok e ->
  skipn (Z.to_nat i) s = e :: skipn (Z.to_nat (i + 1)) s.
Proof.
  intros Hi. apply index_inv in Hi as [Hr Hn].
  replace (Z.to_nat (i + 1)) with (S (Z.to_nat i)) by lia.
  generalize dependent (Z.to_nat i). clear Hr i.
  induction s as [|a s IH]; intros [|n] Hn; simpl in *; try discriminate.
  - now injection Hn as ->.
  - now apply IH.
Qed.

(** The copying loop reads [n] elements from position [i] on. *)
Lemma copyItems_ok (n : nat) :
  forall (s : list E) (i : Z) (items : list E),
    0 <= i -> i + Z.of_nat n <= len s ->
    OrderedQueue.copyItems n s i items
    = Ok (items ++ firstn n (skipn (Z.to_nat i) s)).
Proof.
  induction n as [|n IH]; intros s i items Hi Hn; simpl.
  - now rewrite app_nil_r.
  - destruct (index_in_range s i) as [e He]; [lia|].
    rewrite He. cbn [bind].
    rewrite IH by lia.
    rewrite (skipn_index _ _ _ He). simpl.
    now rewrite <- app_assoc.
Qed.

Lemma slice_from_skipn (s : list E) (i : Z) :
  0 <= i <= len s -> slice_from s i = Ok (skipn (Z.to_nat i) s).
Proof.
  intros Hi. unfold slice_from. rewrite slice_in_range by lia.
  f_equal. apply firstn_all2. rewrite length_skipn. unfold len. lia.
Qed.

Lemma slice_to_firstn (s : list E) (i : Z) :
  0 <= i <= len s -> slice_to s i = Ok (firstn (Z.to_nat i) s).
Proof.
  intros Hi. unfold slice_to. rewrite slice_in_range by lia.
  now rewrite Z.sub_0_r.
Qed.

(** C8. [PopMany(maxResults)], on an ordered and on a FIFO queue alike:
    when [maxResults <= 0] or the queue is empty it returns [(nil, 0)] and
    leaves the queue as it is; otherwise, with [n] the smaller of
    [maxResults] and the size, it returns the first [n] elements in queue
    order together with [n] and leaves the others in the queue.  It returns
    in every case, so it never panics, however large [maxResults] is. *)
Theorem PopMany_spec (s : list E) (mode : OrderingMode) (maxResults : Z) :
  let n := Z.min maxResults (len s) in
  OrderedQueue.PopMany (OrderedQueue.mk s mode) maxResults
  = (if (maxResults <=? 0) || (len s =? 0)
     then Ok ((None, 0), OrderedQueue.mk s mode)
     else Ok ((Some (firstn (Z.to_nat n) s), n),
              OrderedQueue.mk (skipn (Z.to_nat n) s) mode))
  /\ FIFOQueue.PopMany (FIFOQueue.mk s) maxResults
     = (if (maxResults <=? 0) || (len s =? 0)
        then Ok ((None, 0), FIFOQueue.mk s)
        else Ok ((Some (firstn (Z.to_nat n) s), n),
                 FIFOQueue.mk (skipn (Z.to_nat n) s))).
Proof.
  intros n. pose proof (len_nonneg s) as Hlen.
  unfold OrderedQueue.PopMany, FIFOQueue.PopMany. cbn [OrderedQueue.queue FIFOQueue.queue
    OrderedQueue.ordering].
  destruct (Z.geb_spec 0 (len s)) as [Hz|Hpos]; cbn [orb].
  - destruct (Z.eqb_spec (len s) 0); [|lia]. rewrite orb_true_r. split; reflexivity.
  - destruct (Z.geb_spec 0 maxResults) as [Hm|Hm];
      destruct (Z.leb_spec maxResults 0); try lia; cbn [orb]; [split; reflexivity|].
    destruct (Z.eqb_spec (len s) 0); [lia|].
    assert (Hn : (if len s >? maxResults then maxResults else len s) = n).
    { unfold n. destruct (Z.gtb_spec (len s) maxResults); lia. }
    rewrite Hn.
    change (@FIFOQueue.copyItems E) with (@OrderedQueue.copyItems E).
    rewrite copyItems_ok by lia.
    rewrite slice_from_skipn by lia.
    split; reflexivity.
Qed.
End PopManyFacts.

(** ** CutBefore and CutAfter *)

Section CutFacts.
Context {E : Type} `{IElement E}.

(** What [CutBefore] does for every index: nothing below zero, the whole
    queue from zero up to the length, a panic above the length. *)
Lemma CutBefore_cases (s : list E) (mode : OrderingMode) (idx : Z) :
  OrderedQueue.CutBefore (OrderedQueue.mk s mode) idx
  = (if idx <? 0 then Ok ([], OrderedQueue.mk s mode)
     else if idx <=? len s then Ok (s, OrderedQueue.mk [] mode)
     else Panic)
  /\ FIFOQueue.CutBefore (FIFOQueue.mk s) idx
     = (if idx <? 0 then Ok ([], FIFOQueue.mk s)
        else if idx <=? len s then Ok (s, FIFOQueue.mk [])
        else Panic).
Proof.
  unfold OrderedQueue.CutBefore, FIFOQueue.CutBefore.
  cbn [OrderedQueue.queue FIFOQueue.queue OrderedQueue.ordering].
  destruct (Z.gtb_spec 0 idx), (Z.ltb_spec idx 0); try lia; [split; reflexivity|].
  destruct (Z.geb_spec (len s) idx), (Z.leb_spec idx (len s)); try lia;
    [split; reflexivity|].
  unfold slice_to. rewrite slice_out_of_range by lia. split; reflexivity.
Qed.

(** What [CutAfter] does for every index: the whole queue is cut below
    zero, nothing from zero up to the length, a panic above the length. *)
Lemma CutAfter_cases (s : list E) (mode : OrderingMode) (idx : Z) :
  OrderedQueue.CutAfter (OrderedQueue.mk s mode) idx
  = (if idx <? 0 then Ok (s, OrderedQueue.mk [] mode)
     else if idx <=? len s then Ok ([], OrderedQueue.mk s mode)
     else Panic)
  /\ FIFOQueue.CutAfter (FIFOQueue.mk s) idx
     = (if idx <? 0 then Ok (s, FIFOQueue.mk [])
        else if idx <=? len s then Ok ([], FIFOQueue.mk s)
        else Panic).
Proof.
  unfold OrderedQueue.CutAfter, FIFOQueue.CutAfter.
  cbn [OrderedQueue.queue FIFOQueue.queue OrderedQueue.ordering].
  destruct (Z.gtb_spec 0 idx), (Z.ltb_spec idx 0); try lia; [split; reflexivity|].
  destruct (Z.geb_spec (len s) idx), (Z.leb_spec idx (len s)); try lia;
    [split; reflexivity|].
  unfold slice_from. rewrite slice_out_of_range by lia. split; reflexivity.
Qed.

(** C3, as the code has it. For a negative index, and for an index equal
    to the last position or to the length, [CutAfter(i)] on an ordered or a
    FIFO queue removes and returns exactly the elements at positions
    [> i] and leaves positions [0..i] in place, without a panic: a
    negative index cuts the whole contents and empties the queue, the other
    two cut nothing and leave the queue unchanged. *)
Theorem CutAfter_at_the_ends (s : list E) (mode : OrderingMode) (i : Z) :
  i < 0 \/ i = len s - 1 \/ i = len s ->
  let kept := firstn (Z.to_nat (i + 1)) s in
  let cut := skipn (Z.to_nat (i + 1)) s in
  OrderedQueue.CutAfter (OrderedQueue.mk s mode) i
  = Ok (cut, OrderedQueue.mk kept mode)
  /\ FIFOQueue.CutAfter (FIFOQueue.mk s) i = Ok (cut, FIFOQueue.mk kept)
  /\ (i < 0 -> cut = s /\ kept = [])
  /\ (0 <= i -> cut = [] /\ kept = s).
Proof.
  intros Hi kept cut. pose proof (len_nonneg s) as Hlen.
  destruct (CutAfter_cases s mode i) as [Ho Hf]. rewrite Ho, Hf.
  assert (Hneg : i < 0 -> cut = s /\ kept = []).
  { intros Hn. unfold cut, kept.
    replace (Z.to_nat (i + 1)) with 0%nat by lia. split; reflexivity. }
  assert (Hpos : 0 <= i -> cut = [] /\ kept = s).
  { intros Hp. unfold cut, kept. split.
    - apply skipn_all2. unfold len in *. lia.
    - apply firstn_all2. unfold len in *. lia. }
  destruct (Z.ltb_spec i 0) as [Hn|Hp].
  - destruct (Hneg Hn) as [-> ->]. repeat split; auto; lia.
  - destruct (Hpos Hp) as [-> ->].
    destruct (Z.leb_spec i (len s)); [|lia]. repeat split; auto; lia.
Qed.
End CutFacts.

Lemma CutAfter_at_the_ends_witness :
  let s := [entry "a" 1; entry "b" 2] in
  OrderedQueue.CutAfter (OrderedQueue.mk s OrderingAsc) (-1)
  = Ok (s, OrderedQueue.mk [] OrderingAsc)
  /\ FIFOQueue.CutAfter (FIFOQueue.mk s) (-1) = Ok (s, FIFOQueue.mk []).
Proof.
  intros s.
  destruct (CutAfter_at_the_ends s OrderingAsc (-1)) as (Ho & Hf & _);
    [left; lia|].
  split; [exact Ho | exact Hf].
Defined.

(** C3, as the claim has it, fails: on a queue of two elements [CutAfter(-1)]
    returns both and empties the queue, where the claim promises an empty cut
    and an unchanged queue. *)
Lemma CutAfter_negative_counterexample :
  let s := [entry "a" 1; entry "b" 2] in
  OrderedQueue.CutAfter (OrderedQueue.mk s OrderingAsc) (-1)
  <> Ok ([], OrderedQueue.mk s OrderingAsc)
  /\ FIFOQueue.CutAfter (FIFOQueue.mk s) (-1) <> Ok ([], FIFOQueue.mk s)
  /\ OrderedQueue.CutAfter (OrderedQueue.mk s OrderingAsc) (-1)
     = Ok (s, OrderedQueue.mk [] OrderingAsc)
  /\ FIFOQueue.CutAfter (FIFOQueue.mk s) (-1) = Ok (s, FIFOQueue.mk []).
Proof.
  cbv zeta. repeat split; try reflexivity; vm_compute; discriminate.
Qed.

(** C2 on the code. [CutBefore(i)] returns the whole contents and empties
    the queue for every [i] from [0] to the length, and panics for every [i]
    above the length; only a negative [i] is treated as the claim says.  On
    the queue [a, b, c], [CutBefore(1)] returns [a, b, c] and leaves nothing,
    and [CutBefore(4)] panics. *)
Theorem CutBefore_cuts_everything :
  (forall (E : Type) (s : list E) (mode : OrderingMode) (i : Z),
      OrderedQueue.CutBefore (OrderedQueue.mk s mode) i
      = (if i <? 0 then Ok ([], OrderedQueue.mk s mode)
         else if i <=? len s then Ok (s, OrderedQueue.mk [] mode)
         else Panic)
      /\ FIFOQueue.CutBefore (FIFOQueue.mk s) i
         = (if i <? 0 then Ok ([], FIFOQueue.mk s)
            else if i <=? len s then Ok (s, FIFOQueue.mk [])
            else Panic))
  /\ (let s := [entry "a" 1; entry "b" 2; entry "c" 3] in
      OrderedQueue.CutBefore (OrderedQueue.mk s OrderingAsc) 1
      = Ok (s, OrderedQueue.mk [] OrderingAsc)
      /\ FIFOQueue.CutBefore (FIFOQueue.mk s) 1 = Ok (s, FIFOQueue.mk [])
      /\ OrderedQueue.CutBefore (OrderedQueue.mk s OrderingAsc) 4 = Panic
      /\ FIFOQueue.CutBefore (FIFOQueue.mk s) 4 = Panic).
Proof.
  split.
  - intros E s mode i. apply CutBefore_cases.
  - cbv zeta. repeat split; reflexivity.
Qed.

(** ** Lookup by identity in an ordered queue *)

Section FindFacts.
Context {E : Type} `{IElement E}.
Import OrderedQueue.

Lemma scanUp_cases (n : nat) (s : list E) (item : E) :
  forall cursor,
    0 <= cursor -> cursor + Z.of_nat n <= len s ->
    (exists p e, cursor <= p < cursor + Z.of_nat n
                 /\ index s p = Ok e /\ GetID item = GetID e
                 /\ scanUp n s item cursor = Ok (Some p))
    \/ ((forall p e, cursor <= p < cursor + Z.of_nat n ->
                     index s p = Ok e -> GetID item <> GetID e)
        /\ scanUp n s item cursor = Ok None).
Proof.
  induction n as [|n IH]; intros cursor Hlo Hhi.
  - right. split; [intros; lia | reflexivity].
  - destruct (index_in_range s cursor) as [e He]; [lia|].
    cbn [scanUp]. rewrite He. cbn [bind].
    destruct (String.eqb_spec (GetID item) (GetID e)) as [Heq|Hne].
    + left. exists cursor, e. repeat split; auto; lia.
    + destruct (IH (cursor + 1)) as [(p & e' & Hp & Hi & Hid & Hscan) | [Hnone Hscan]];
        try lia.
      * left. exists p, e'. repeat split; auto; lia.
      * right. split; [|assumption].
        intros p e' Hp Hi.
        destruct (Z.eq_dec p cursor) as [->|Hneq].
        -- rewrite He in Hi. now injection Hi as <-.
        -- apply (Hnone p e'); [lia | assumption].
Qed.

Lemma scanDown_cases (n : nat) (s : list E) (item : E) :
  forall cursor,
    cursor < len s -> -1 <= cursor - Z.of_nat n ->
    (exists p e, cursor - Z.of_nat n < p <= cursor
                 /\ index s p = Ok e /\ GetID item = GetID e
                 /\ scanDown n s item cursor = Ok (Some p))
    \/ ((forall p e, cursor - Z.of_nat n < p <= cursor ->
                     index s p = Ok e -> GetID item <> GetID e)
        /\ scanDown n s item cursor = Ok None).
Proof.
  induction n as [|n IH]; intros cursor Hhi Hlo.
  - right. split; [intros; lia | reflexivity].
  - destruct (index_in_range s cursor) as [e He]; [lia|].
    cbn [scanDown]. rewrite He. cbn [bind].
    destruct (String.eqb_spec (GetID item) (GetID e)) as [Heq|Hne].
    + left. exists cursor, e. repeat split; auto; lia.
    + destruct (IH (cursor - 1)) as [(p & e' & Hp & Hi & Hid & Hscan) | [Hnone Hscan]];
        try lia.
      * left. exists p, e'. repeat split; auto; lia.
      * right. split; [|assumption].
        intros p e' Hp Hi.
        destruct (Z.eq_dec p cursor) as [->|Hneq].
        -- rewrite He in Hi. now injection Hi as <-.
        -- apply (Hnone p e'); [lia | assumption].
Qed.

(** [findElementIndex] returns a position of the window whose identity
    matches, or [-1] when the window holds no match. *)
Lemma findElementIndex_cases (q : t E) (item : E) :
  exists est,
    findOrderedQueueInsertingIndex (queue q) (len (queue q)) item (ordering q) = Ok est
    /\ ((exists p, matchInWindow (queue q) item est p
                   /\ 0 <= p < len (queue q)
                   /\ findElementIndex q item = Ok p)
        \/ ((forall p, ~ matchInWindow (queue q) item est p)
            /\ findElementIndex q item = Ok (-1))).
Proof.
  destruct (findOrderedQueueInsertingIndex_total (queue q) item (ordering q))
    as (est & Hest & Hr).
  exists est. split; [assumption|].
  unfold findElementIndex. cbv zeta.
  destruct (Z.geb_spec 0 (len (queue q))) as [Hz|Hpos].
  { right. split; [|reflexivity].
    intros p (_ & e & Hi & _). apply index_inv in Hi. lia. }
  rewrite Hest. cbn [bind].
  set (mx := if est + 2 >? len (queue q) then len (queue q) else est + 2).
  set (mn := if -1 >? est - 2 then -1 else est - 2).
  assert (Hmx : mx = Z.min (est + 2) (len (queue q)))
    by (unfold mx; destruct (Z.gtb_spec (est + 2) (len (queue q))); lia).
  assert (Hmn : mn = Z.max (-1) (est - 2))
    by (unfold mn; destruct (Z.gtb_spec (-1) (est - 2)); lia).
  destruct (scanUp_cases (Z.to_nat (mx - est)) (queue q) item est)
    as [(p & e & Hp & Hi & Hid & Hscan) | [Hup Hscan]]; try lia; rewrite Hscan; cbn [bind].
  { left. exists p. pose proof (index_inv _ _ _ Hi) as [Hrange _].
    split; [split; [lia | eauto] | split; [lia | reflexivity]]. }
  destruct (scanDown_cases (Z.to_nat (est - 1 - mn)) (queue q) item (est - 1))
    as [(p & e & Hp & Hi & Hid & Hdown) | [Hdn Hdown]]; try lia; rewrite Hdown; cbn [bind].
  { left. exists p. pose proof (index_inv _ _ _ Hi) as [Hrange _].
    split; [split; [lia | eauto] | split; [lia | reflexivity]]. }
  right. split; [|reflexivity].
  intros p (Hp & e & Hi & Hid).
  pose proof (index_inv _ _ _ Hi) as [Hrange _].
  destruct (Z.le_gt_cases est p).
  - apply (Hup p e); [lia | assumption | assumption].
  - apply (Hdn p e); [lia | assumption | assumption].
Qed.

(** [Remove] deletes the position found, if any. *)
Lemma Remove_cases (q : t E) (item : E) :
  exists est,
    findOrderedQueueInsertingIndex (queue q) (len (queue q)) item (ordering q) = Ok est
    /\ ((exists p, matchInWindow (queue q) item est p
                   /\ Remove q item
                      = Ok (true, mk (firstn (Z.to_nat p) (queue q)
                                      ++ skipn (Z.to_nat (p + 1)) (queue q))
                                     (ordering q)))
        \/ ((forall p, ~ matchInWindow (queue q) item est p)
            /\ Remove q item = Ok (false, q))).
Proof.
  destruct (findElementIndex_cases q item)
    as (est & Hest & [(p & Hm & Hp & Hfind) | [Hnone Hfind]]);
    exists est; (split; [assumption|]); unfold Remove; rewrite Hfind; cbn [bind].
  - left. exists p. split; [assumption|].
    destruct (Z.gtb_spec 0 p); [lia|].
    fold (slice_to (queue q) p).
    rewrite slice_to_firstn, slice_from_skipn by lia. reflexivity.
  - right. split; [assumption | reflexivity].
Qed.

(** [GetOne] answers with its own argument, and with whether the window
    holds a match. *)
Lemma GetOne_cases (q : t E) (item : E) :
  exists est found,
    findOrderedQueueInsertingIndex (queue q) (len (queue q)) item (ordering q) = Ok est
    /\ GetOne q item = Ok (item, found)
    /\ (found = true <-> exists p, matchInWindow (queue q) item est p).
Proof.
  destruct (findElementIndex_cases q item)
    as (est & Hest & [(p & Hm & Hp & Hfind) | [Hnone Hfind]]);
    exists est; unfold GetOne; rewrite Hfind; cbn [bind].
  - exists true. destruct (Z.gtb_spec 0 p); [lia|].
    repeat split; eauto.
  - exists false. repeat split; auto; [discriminate|].
    intros [p Hp]. now apply Hnone in Hp.
Qed.
End FindFacts.

(** C4, as the code has it. [Remove(item)] computes the insertion index
    [est] of [item] by the binary search and compares identities at the
    positions [est - 1], [est] and [est + 1] only (those that exist).  If an
    identity matches there, one such position is deleted and [true] is
    returned; otherwise the queue is left as it is and [false] is returned,
    also when an element with that identity is in the queue elsewhere: so
    [Remove(a)] on the ascending queue [a, b, c] of equal ordering values. *)
Theorem Remove_searches_window :
  (forall (E : Type) (I : IElement E) (q : OrderedQueue.t E) (item : E),
      exists est,
        OrderedQueue.findOrderedQueueInsertingIndex
          (OrderedQueue.queue q) (len (OrderedQueue.queue q)) item (OrderedQueue.ordering q)
        = Ok est
        /\ ((exists p, matchInWindow (OrderedQueue.queue q) item est p
                       /\ OrderedQueue.Remove q item
                          = Ok (true,
                                OrderedQueue.mk
                                  (firstn (Z.to_nat p) (OrderedQueue.queue q)
                                   ++ skipn (Z.to_nat (p + 1)) (OrderedQueue.queue q))
                                  (OrderedQueue.ordering q)))
            \/ ((forall p, ~ matchInWindow (OrderedQueue.queue q) item est p)
                /\ OrderedQueue.Remove q item = Ok (false, q))))
  /\ (let q := OrderedQueue.mk [entry "a" 1; entry "b" 1; entry "c" 1] OrderingAsc in
      In (entry "a" 1) (OrderedQueue.queue q)
      /\ OrderedQueue.Remove q (entry "a" 1) = Ok (false, q)).
Proof.
  split.
  - intros E I q item. apply Remove_cases.
  - cbv zeta. split; [left; reflexivity | reflexivity].
Qed.

(** C4, as the claim has it, fails: in the ascending queue [a, b] of equal
    ordering values the insertion index of [a] is [2], so that [a], at
    position [0], is two positions before it, inside the window the claim
    describes; yet [Remove(a)] returns [false] and removes nothing. *)
Lemma Remove_window_counterexample :
  let a := entry "a" 1 in
  let q := OrderedQueue.mk [a; entry "b" 1] OrderingAsc in
  OrderedQueue.findOrderedQueueInsertingIndex
    (OrderedQueue.queue q) (len (OrderedQueue.queue q)) a OrderingAsc = Ok 2
  /\ index (OrderedQueue.queue q) (2 - 2) = Ok a
  /\ OrderedQueue.Remove q a = Ok (false, q)
  /\ OrderedQueue.Remove q a
     <> Ok (true, OrderedQueue.mk [entry "b" 1] OrderingAsc).
Proof.
  cbv zeta. repeat split; try reflexivity. vm_compute. discriminate.
Qed.

(** C10. [GetOne(item)] computes the insertion index of [item] from its
    ordering value and compares identities in the window around it only; it
    reports [true] exactly when the window holds a match, and the value it
    returns is its own argument.  So there is a queue that holds an element
    with the identity asked for, outside the window, for which [GetOne]
    reports [false]; and there is a queue whose stored element differs from
    the argument of the same identity, for which [GetOne] reports [true] and
    returns the argument, not the stored element. *)
Theorem GetOne_searches_window :
  (forall (E : Type) (I : IElement E) (q : OrderedQueue.t E) (item : E),
      exists est found,
        OrderedQueue.findOrderedQueueInsertingIndex
          (OrderedQueue.queue q) (len (OrderedQueue.queue q)) item (OrderedQueue.ordering q)
        = Ok est
        /\ OrderedQueue.GetOne q item = Ok (item, found)
        /\ (found = true <-> exists p, matchInWindow (OrderedQueue.queue q) item est p))
  /\ (let q := OrderedQueue.mk [entry "a" 1; entry "b" 1; entry "c" 1] OrderingAsc in
      In (entry "a" 1) (OrderedQueue.queue q)
      /\ OrderedQueue.GetOne q (entry "a" 1) = Ok (entry "a" 1, false))
  /\ (let stored := entry "a" 1 in
      let item := entry "a" 0 in
      let q := OrderedQueue.mk [stored; entry "b" 2] OrderingAsc in
      GetID stored = GetID item
      /\ stored <> item
      /\ OrderedQueue.GetOne q item = Ok (item, true)).
Proof.
  split; [|split].
  - intros E I q item. apply GetOne_cases.
  - cbv zeta. split; [left; reflexivity | reflexivity].
  - cbv zeta. repeat split; try reflexivity. discriminate.
Qed.

(** ** The retry scheduler *)

Lemma wrap64_inInt64 (z : Z) : inInt64 z -> wrap64 z = z.
Proof.
  unfold inInt64, max_int64, wrap64. intros Hz.
  rewrite Z.mod_small; lia.
Qed.

Section PushFacts.
Context {E : Type} `{IElement E}.
Import OrderedQueue.

(** [Add] succeeds on every queue, sorted or not: the element goes to the
    position the search returns. *)
Lemma Add_total (q : t E) (item : E) :
  exists l1 l2,
    queue q = l1 ++ l2
    /\ Add q item = Ok (mk (l1 ++ item :: l2) (ordering q)).
Proof.
  destruct (findOrderedQueueInsertingIndex_total (queue q) item (ordering q))
    as (est & Hest & Hr).
  destruct (split_at (queue q) est Hr) as (l1 & l2 & Hq & Hl1).
  exists l1, l2. split; [assumption|].
  unfold Add, pushItemToOrderedQueue. cbv zeta. rewrite Hest. cbn [bind].
  pose proof (len_nonneg l1). pose proof (len_nonneg l2).
  destruct (Z.geb_spec 0 (len (queue q))) as [Hz|Hpos].
  - rewrite Hq, len_app in Hz.
    rewrite (len_zero_nil l1), (len_zero_nil l2) by lia. reflexivity.
  - destruct (Z.geb_spec est (len (queue q))) as [Hend|Hmid]; cbn [bind].
    + rewrite Hq, len_app in Hend. rewrite Hq.
      rewrite (len_zero_nil l2) by lia. now rewrite app_nil_r.
    + rewrite Hq, <- Hl1, slice_from_app. cbn [bind].
      rewrite slice_to_app. cbn [bind]. now rewrite <- app_assoc.
Qed.

Lemma Pop_cons (e : E) (s : list E) (mode : OrderingMode) :
  Pop (mk (e :: s) mode) = Ok ((Some e, true), mk s mode).
Proof.
  unfold Pop. cbn [queue ordering]. pose proof (len_nonneg s).
  rewrite len_cons. destruct (Z.leb_spec (len s + 1) 0); [lia|].
  rewrite index_head. cbn [bind].
  change (e :: s) with ([e] ++ s). change 1 with (len [e]).
  now rewrite slice_from_app.
Qed.
End PushFacts.

(** C5. When a dispatch fails with a retry budget ([shouldRetry > 0]) that
    is not used up ([retries < shouldRetry]), the delay computed is the base
    factor for fewer than three attempts and the base factor times the number
    of attempts from the third on, and the entry put into the queue of
    pending requests carries the current Unix time plus that delay as its
    trigger timestamp; the entries already pending stay as they are.  The
    product and the sum are those of 64-bit integers: they are taken within
    that range. *)
Theorem afterQueryFailed_backoff
    (method url : string) (body : list Byte.byte) (opts : httpClientOption)
    (now : Z) (st : scheduler) :
  let attemptCount := retries opts in
  let delay :=
    if attemptCount <? 3 then RetryDurationFactor
    else RetryDurationFactor * attemptCount in
  shouldRetry opts > 0 ->
  attemptCount < shouldRetry opts ->
  inInt64 (RetryDurationFactor * attemptCount) ->
  inInt64 (now + delay) ->
  formatRetryDuration attemptCount = delay
  /\ exists l1 l2,
       OrderedQueue.queue (pendingRequestsQueue st) = l1 ++ l2
       /\ afterQueryFailed method url body opts now st
          = Ok {| pendingRequestsQueue :=
                    OrderedQueue.mk
                      (l1 ++ {| method := method; url := url; body := body;
                                options := opts;
                                triggerTimestamp := now + delay |} :: l2)
                      (OrderedQueue.ordering (pendingRequestsQueue st));
                  pendingRequestsTimer := true |}.
Proof.
  intros attemptCount delay Hbudget Hleft Hprod Hsum.
  assert (Hdelay : formatRetryDuration attemptCount = delay).
  { unfold formatRetryDuration, delay.
    destruct (attemptCount <? 3); [reflexivity | now apply wrap64_inInt64]. }
  split; [assumption|].
  unfold afterQueryFailed. fold attemptCount.
  destruct (Z.gtb_spec (shouldRetry opts) 0); [|lia].
  destruct (Z.geb_spec attemptCount (shouldRetry opts)); [lia|].
  rewrite Hdelay, (wrap64_inInt64 _ Hsum).
  unfold OrderedQueue.Push.
  destruct (Add_total (pendingRequestsQueue st)
              {| method := method; url := url; body := body; options := opts;
                 triggerTimestamp := now + delay |}) as (l1 & l2 & Hq & Hadd).
  exists l1, l2. split; [assumption|].
  rewrite Hadd. reflexivity.
Qed.

Lemma afterQueryFailed_backoff_witness :
  formatRetryDuration 4 = 20
  /\ exists l1 l2,
       OrderedQueue.queue (pendingRequestsQueue newScheduler) = l1 ++ l2
       /\ afterQueryFailed "POST" "a" []
            {| headers := []; tlsOptions := None; proxies := None; timeouts := 0;
               retries := 4; shouldRetry := 6; successStatus := [] |}
            1000 newScheduler
          = Ok {| pendingRequestsQueue :=
                    OrderedQueue.mk
                      (l1 ++ {| method := "POST"; url := "a"; body := [];
                                options :=
                                  {| headers := []; tlsOptions := None; proxies := None;
                                     timeouts := 0; retries := 4; shouldRetry := 6;
                                     successStatus := [] |};
                                triggerTimestamp := 1000 + 20 |} :: l2)
                      OrderingAsc;
                  pendingRequestsTimer := true |}.
Proof.
  apply (afterQueryFailed_backoff "POST" "a" []
           {| headers := []; tlsOptions := None; proxies := None; timeouts := 0;
              retries := 4; shouldRetry := 6; successStatus := [] |}
           1000 newScheduler);
    simpl; unfold inInt64, max_int64, RetryDurationFactor; simpl; lia.
Defined.

(** C6, as the code has it. For [attemptCount = 0, 1, 2, 3, 4] the delay is
    [factor, factor, factor, 3 * factor, 4 * factor], where [factor] is
    [RetryDurationFactor]. *)
Theorem formatRetryDuration_schedule :
  map formatRetryDuration [0; 1; 2; 3; 4]
  = [RetryDurationFactor; RetryDurationFactor; RetryDurationFactor;
     3 * RetryDurationFactor; 4 * RetryDurationFactor].
Proof. reflexivity. Qed.

(** C6, as the claim has it, fails at [attemptCount = 3] and at
    [attemptCount = 4]: the delays are three and four times the factor, not
    four and five times. *)
Lemma formatRetryDuration_schedule_counterexample :
  formatRetryDuration 3 <> 4 * RetryDurationFactor
  /\ formatRetryDuration 4 <> 5 * RetryDurationFactor.
Proof. split; vm_compute; discriminate. Qed.

(** C7, as the code has it. A panic raised by the retry action for a due
    entry is caught neither by [checkRetryEntity] nor by
    [pendingRequestsTimer]: the tick ends in that panic, and so does the
    consumer loop, which handles none of the later ticks. *)
Theorem retry_panic_ends_consumer
    (transport : string -> string -> list Byte.byte -> httpClientOption -> roundTrip)
    (clock : Z) (fuel : nat) (now : Z) (ticks : list Z) (st : scheduler)
    (re : requestEntity) (rest : list requestEntity) :
  OrderedQueue.queue (pendingRequestsQueue st) = re :: rest ->
  triggerTimestamp re <= now ->
  transport (method re) (url re) (body re)
    (retryOption re defaultHTTPClientJSONOptions) = Panicked ->
  checkRetryEntity transport clock (Some re) now
    {| pendingRequestsQueue :=
         OrderedQueue.mk rest (OrderedQueue.ordering (pendingRequestsQueue st));
       pendingRequestsTimer := pendingRequestsTimer st |} = Panic
  /\ tickLoop transport clock (S fuel) now st = Panic
  /\ consumerLoop transport clock (S fuel) (now :: ticks) st = Panic.
Proof.
  intros Hq Hdue Hpanic.
  assert (Hcheck : forall st1, checkRetryEntity transport clock (Some re) now st1 = Panic).
  { intros st1. unfold checkRetryEntity.
    destruct (Z.leb_spec (triggerTimestamp re) now); [|lia].
    unfold HTTPQuery. rewrite Hpanic. reflexivity. }
  assert (Htick : tickLoop transport clock (S fuel) now st = Panic).
  { cbn [tickLoop]. destruct st as [[s mode] timer]. cbn [pendingRequestsQueue] in *.
    cbn [OrderedQueue.queue] in Hq. subst s.
    rewrite Pop_cons. cbn [bind fst snd]. rewrite Hcheck. reflexivity. }
  repeat split; [apply Hcheck | assumption|].
  cbn [consumerLoop]. rewrite Htick. reflexivity.
Qed.

Lemma retry_panic_ends_consumer_witness :
  let st := {| pendingRequestsQueue := OrderedQueue.mk [entry "a" 1] OrderingAsc;
               pendingRequestsTimer := true |} in
  tickLoop (fun _ _ _ _ => Panicked) 5 (S 9) 5 st = Panic
  /\ consumerLoop (fun _ _ _ _ => Panicked) 5 (S 9) [5; 6] st = Panic.
Proof.
  intros st.
  destruct (retry_panic_ends_consumer (fun _ _ _ _ => Panicked) 5 9 5 [6] st
              (entry "a" 1) []) as (_ & Htick & Hloop);
    [reflexivity | simpl; lia | reflexivity|].
  split; [exact Htick | exact Hloop].
Defined.

(** C7, as the claim has it, fails: with a retry action that panics on the
    one due entry, the consumer loop given two ticks ends in the panic,
    where a dispatch failure would have let it handle both ticks and
    return. *)
Lemma retry_panic_counterexample :
  let st := {| pendingRequestsQueue := OrderedQueue.mk [entry "a" 1] OrderingAsc;
               pendingRequestsTimer := true |} in
  consumerLoop (fun _ _ _ _ => Panicked) 5 10 [5; 6] st = Panic
  /\ consumerLoop (fun _ u b _ => Failed u b) 5 10 [5; 6] st
     = Ok {| pendingRequestsQueue := OrderedQueue.mk [] OrderingAsc;
             pendingRequestsTimer := true |}.
Proof. cbv zeta. split; reflexivity. Qed.

(** ** Goroutines on one ordered queue *)

Section GoroutineFacts.
Context {E : Type} `{IElement E}.

Lemma setNth_app {A : Type} (l1 l2 : list A) (x y : A) :
  setNth (List.length l1) y (l1 ++ x :: l2) = l1 ++ y :: l2.
Proof. induction l1 as [|a l1 IH]; simpl; [reflexivity | now rewrite IH]. Qed.

(** A list with a single element outside [P] splits around it in one way. *)
Lemma split_unique {A : Type} (P : A -> Prop) (t1 t2 s1 s2 : list A) (a b : A) :
  Forall P t1 -> Forall P t2 -> ~ P a -> ~ P b ->
  t1 ++ a :: t2 = s1 ++ b :: s2 ->
  t1 = s1 /\ a = b /\ t2 = s2.
Proof.
  intros Ht1 Ht2 Ha Hb. revert s1.
  induction Ht1 as [|x t1 Hx Ht1 IH]; intros [|y s1] Heq; simpl in Heq.
  - injection Heq as -> ->. auto.
  - injection Heq as -> ->. apply Forall_app in Ht2 as [_ Ht2].
    apply Forall_cons_iff in Ht2 as [Hb' _]. contradiction.
  - injection Heq as -> <-. contradiction.
  - injection Heq as -> Heq. destruct (IH s1 Heq) as (-> & -> & ->). auto.
Qed.

Lemma returnedItems_app (r1 r2 : list (option E * bool)) :
  returnedItems (r1 ++ r2) = returnedItems r1 ++ returnedItems r2.
Proof.
  induction r1 as [|[[item|] b] r1 IH]; simpl; [reflexivity | now rewrite IH | assumption].
Qed.

Lemma perm_swap_front (a b c d : list E) :
  Permutation (a ++ b ++ c ++ d) ((a ++ c) ++ b ++ d).
Proof.
  rewrite <- app_assoc. apply Permutation_app_head.
  rewrite !app_assoc. apply Permutation_app_tail. apply Permutation_app_comm.
Qed.

(** Replacing one goroutine keeps the account when the queue and the
    goroutine together hold the same elements as before. *)
Lemma account_update (q q' : list E) (g g' : goroutine) (s1 s2 : list goroutine)
    (items : list E) :
  Permutation (q' ++ held g') (q ++ held g) ->
  Permutation (q ++ flat_map held (s1 ++ g :: s2)) items ->
  Permutation (q' ++ flat_map held (s1 ++ g' :: s2)) items.
Proof.
  intros Hg Hacc. rewrite flat_map_app in *. simpl in *.
  rewrite perm_swap_front. rewrite perm_swap_front in Hacc.
  rewrite <- Hacc. now apply Permutation_app_tail.
Qed.

Lemma pushItemToOrderedQueue_sorted (mode : OrderingMode) (item : E) (s : list E) :
  sortedBy mode s ->
  exists l1 l2,
    s = l1 ++ l2
    /\ OrderedQueue.pushItemToOrderedQueue s (len s) item mode = Ok (l1 ++ item :: l2)
    /\ sortedBy mode (l1 ++ item :: l2).
Proof.
  intros Hs.
  destruct (sorted_partition mode item s Hs) as (l1 & l2 & -> & H1 & H2).
  exists l1, l2. repeat split.
  - now apply pushItemToOrderedQueue_partitioned.
  - apply sortedBy_insert; [assumption | |].
    + eapply Forall_impl; [|exact H1]. intros; now apply goesLeft_false_ordered.
    + eapply Forall_impl; [|exact H2]. intros e He.
      now apply goesLeft_true_strict in He as [He _].
Qed.

Ltac same_account := apply Permutation_refl.
Ltac keep_account :=
  eapply account_update; [|eassumption]; unfold held;
  cbn [frameOf calls returned frameHeld callsHeld app].
Ltac holder s1 s2 :=
  exists s1; eexists; exists s2;
  split; [reflexivity|]; split; [assumption|]; split; [assumption|];
  split; [cbn; discriminate | cbn].
Ltac four_parts :=
  unfold consistent; cbn [memory sharedQueue locked goroutines
                          OrderedQueue.queue OrderedQueue.ordering];
  split; [|split; [|split]].

(** One step of any goroutine succeeds and keeps the invariant. *)
Lemma step_consistent (items : list E) (tid : nat) (sys : system) :
  consistent items sys ->
  exists sys', step tid sys = Ok sys' /\ consistent items sys'.
Proof.
  intros Hc. unfold step.
  destruct (nth_error (goroutines sys) tid) as [g|] eqn:Hg; [|eauto].
  apply nth_error_split in Hg as (s1 & s2 & Hths & Htid). subst tid.
  destruct sys as [[q lk] ths]. cbn [goroutines memory] in *. subst ths.
  destruct Hc as (Hmode & Hsorted & Hacc & Hlock).
  cbn [memory sharedQueue locked goroutines] in *.
  destruct g as [f cs rs].
  assert (Hstutter :
    exists sys',
      Ok {| memory := {| sharedQueue := q; locked := lk |};
            goroutines := setNth (List.length s1)
                            {| frameOf := f; calls := cs; returned := rs |}
                            (s1 ++ {| frameOf := f; calls := cs; returned := rs |} :: s2) |}
      = Ok sys' /\ consistent items sys').
  { rewrite setNth_app. eexists. split; [reflexivity|].
    repeat split; assumption. }
  destruct lk.
  - (* the mutex is held *)
    destruct Hlock as (t1 & gc & t2 & Hsplit & Ht1 & Ht2 & Hbusy & Hframe).
    assert (Hsame : f <> Idle ->
              t1 = s1 /\ gc = {| frameOf := f; calls := cs; returned := rs |} /\ t2 = s2).
    { intros Hf.
      apply (split_unique idle); auto. }
    destruct f;
      try (destruct Hsame as (-> & -> & ->); [discriminate|];
           cbn [frameOf] in Hframe, Hbusy).
    + (* Idle: waits or has finished *)
      unfold stepGoroutine. cbn [frameOf calls memory locked].
      destruct cs; exact Hstutter.
    + (* AddLocked *)
      unfold stepGoroutine. cbn. rewrite setNth_app.
      eexists. split; [reflexivity|]. four_parts.
      * assumption.
      * assumption.
      * keep_account. same_account.
      * holder s1 s2. first [exact I | reflexivity].
    + (* AddLen *)
      cbn in Hframe. subst ql.
      destruct (pushItemToOrderedQueue_sorted (OrderedQueue.ordering q) item
                  (OrderedQueue.queue q)) as (l1 & l2 & Hq & Hpush & Hs');
        [now rewrite Hmode|].
      unfold stepGoroutine. cbn [frameOf memory sharedQueue]. rewrite Hpush. cbn.
      rewrite setNth_app. eexists. split; [reflexivity|]. four_parts.
      * assumption.
      * assumption.
      * keep_account. same_account.
      * holder s1 s2.
        exists l1, l2. repeat split; assumption.
    + (* AddPushed *)
      destruct Hframe as (l1 & l2 & Hq & -> & Hs').
      unfold stepGoroutine. cbn. rewrite setNth_app.
      eexists. split; [reflexivity|]. four_parts.
      * assumption.
      * now rewrite <- Hmode.
      * keep_account. rewrite Hq.
        rewrite <- !app_assoc. apply Permutation_app_head. cbn.
        apply Permutation_middle.
      * holder s1 s2. first [exact I | reflexivity].
    + (* AddStored *)
      unfold stepGoroutine. cbn. rewrite setNth_app.
      eexists. split; [reflexivity|]. four_parts.
      * assumption.
      * assumption.
      * keep_account. same_account.
      * apply Forall_app. split; [assumption|]. constructor; [reflexivity | assumption].
    + (* PopLocked *)
      unfold stepGoroutine. cbn [frameOf memory sharedQueue calls returned].
      destruct (Z.leb_spec (len (OrderedQueue.queue q)) 0); cbn; rewrite setNth_app;
        (eexists; split; [reflexivity|]); four_parts; try assumption;
        try (keep_account; same_account);
        holder s1 s2; first [exact I | lia].
    + (* PopEmpty *)
      unfold stepGoroutine. cbn. rewrite setNth_app.
      eexists. split; [reflexivity|]. four_parts.
      * assumption.
      * assumption.
      * keep_account. rewrite returnedItems_app. cbn. rewrite app_nil_r. same_account.
      * apply Forall_app. split; [assumption|]. constructor; [reflexivity | assumption].
    + (* PopNonEmpty *)
      cbn in Hframe.
      destruct (OrderedQueue.queue q) as [|e rest] eqn:Hq;
        [unfold len in Hframe; simpl in Hframe; lia|].
      unfold stepGoroutine. cbn [frameOf memory sharedQueue]. rewrite Hq, index_head. cbn.
      rewrite setNth_app. eexists. split; [reflexivity|]. four_parts.
      * assumption.
      * now rewrite Hq.
      * rewrite Hq. keep_account. same_account.
      * holder s1 s2.
        exists rest. assumption.
    + (* PopItem *)
      destruct Hframe as (rest & Hq).
      unfold stepGoroutine. cbn [frameOf memory sharedQueue]. rewrite Hq.
      change (item :: rest) with ([item] ++ rest). change 1 with (len [item]).
      rewrite slice_from_app. cbn. rewrite setNth_app.
      eexists. split; [reflexivity|].
      rewrite Hq in Hsorted, Hacc.
      apply StronglySorted_inv in Hsorted as [Hsorted _]. four_parts.
      * assumption.
      * assumption.
      * keep_account. apply Permutation_sym, Permutation_middle.
      * holder s1 s2. first [exact I | reflexivity].
    + (* PopStored *)
      unfold stepGoroutine. cbn. rewrite setNth_app.
      eexists. split; [reflexivity|]. four_parts.
      * assumption.
      * assumption.
      * keep_account. rewrite returnedItems_app. cbn.
        apply Permutation_app_head.
        rewrite app_assoc. apply Permutation_sym, Permutation_cons_append.
      * apply Forall_app. split; [assumption|]. constructor; [reflexivity | assumption].
  - (* the mutex is free: every goroutine is idle *)
    apply Forall_app in Hlock as [Hs1 Hs2].
    apply Forall_cons_iff in Hs2 as [Hg Hs2].
    unfold idle in Hg. cbn in Hg. subst f.
    unfold stepGoroutine. cbn [frameOf calls memory locked].
    destruct cs as [|c cs]; [exact Hstutter|].
    cbn. rewrite setNth_app. eexists. split; [reflexivity|]. four_parts.
    + assumption.
    + assumption.
    + keep_account. destruct c; same_account.
    + exists s1; eexists; exists s2. split; [reflexivity|].
      repeat split; try assumption; destruct c; cbn; first [discriminate | exact I].
Qed.

Lemma run_consistent (items : list E) (schedule : list nat) :
  forall sys,
    consistent items sys ->
    exists sys', run schedule sys = Ok sys' /\ consistent items sys'.
Proof.
  induction schedule as [|tid schedule IH]; intros sys Hc; simpl; [eauto|].
  destruct (step_consistent items tid sys Hc) as (sys1 & Hstep & Hc1).
  rewrite Hstep. cbn [bind]. now apply IH.
Qed.

Lemma callsHeld_repeat_CallPop (n : nat) : callsHeld (E:=E) (repeat CallPop n) = [].
Proof. induction n; simpl; auto. Qed.

Lemma start_consistent (items : list E) (pops : nat) :
  consistent items (start items pops).
Proof.
  unfold consistent, start. cbn.
  repeat split; try reflexivity.
  - constructor.
  - unfold held at 1. cbn. rewrite callsHeld_repeat_CallPop. cbn.
    induction items as [|item items IH]; cbn; [constructor | now constructor].
  - constructor; [reflexivity|].
    apply Forall_forall. intros g Hg. apply in_map_iff in Hg as (item & <- & _).
    reflexivity.
Qed.

Lemma finished_held (ths : list (@goroutine E)) :
  forallb finishedGoroutine ths = true ->
  flat_map held ths = flat_map (fun g => returnedItems (returned g)) ths.
Proof.
  induction ths as [|g ths IH]; simpl; [reflexivity|].
  intros Hall. apply andb_prop in Hall as [Hg Hall].
  rewrite IH by assumption. f_equal.
  unfold finishedGoroutine in Hg. unfold held.
  destruct (frameOf g); try discriminate.
  destruct (calls g); [reflexivity | discriminate].
Qed.

(** Draining a queue by [Pop] returns its elements from the front on. *)
Lemma drain_all (s : list E) (mode : OrderingMode) :
  drain (S (List.length s)) (OrderedQueue.mk s mode) = Ok s.
Proof.
  induction s as [|e s IH].
  - reflexivity.
  - change (drain (S (List.length (e :: s))) (OrderedQueue.mk (e :: s) mode))
      with (r <- OrderedQueue.Pop (OrderedQueue.mk (e :: s) mode) ;;
            match fst r with
            | (Some item, true) =>
                items <- drain (S (List.length s)) (snd r) ;; Ok (item :: items)
            | _ => Ok []
            end).
    rewrite Pop_cons. cbn [bind fst snd]. rewrite IH. reflexivity.
Qed.

Lemma NoDup_of_map {A B : Type} (f : A -> B) (l : list A) :
  NoDup (map f l) -> NoDup l.
Proof.
  induction l as [|a l IH]; simpl; intros Hnd; [constructor|].
  apply NoDup_cons_iff in Hnd as [Hnotin Hnd].
  constructor; [|now apply IH].
  intros Hin. apply Hnotin. now apply in_map.
Qed.

(** *** The calls of [Pop] *)

Lemma stepGoroutine_popCount (m m' : shared) (g g' : goroutine) :
  stepGoroutine m g = Ok (m', g') -> popCount g' = popCount g.
Proof.
  unfold stepGoroutine, unlock, popCount. destruct g as [f cs rs]. cbn [frameOf calls returned].
  destruct f; cbn [bind].
  - destruct cs as [|[item|] cs]; [intros [= <- <-]; reflexivity | |];
      (destruct (locked m); intros [= <- <-]; cbn; lia).
  - intros [= <- <-]. reflexivity.
  - destruct (OrderedQueue.pushItemToOrderedQueue _ _ _ _); cbn [bind];
      [intros [= <- <-]; reflexivity | discriminate | discriminate].
  - intros [= <- <-]. reflexivity.
  - destruct (locked m); cbn [bind]; [intros [= <- <-]; reflexivity | discriminate].
  - destruct (len _ <=? 0); intros [= <- <-]; reflexivity.
  - destruct (locked m); cbn [bind]; [|discriminate].
    intros [= <- <-]. cbn. rewrite length_app. cbn. lia.
  - destruct (index _ 0); cbn [bind];
      [intros [= <- <-]; reflexivity | discriminate | discriminate].
  - destruct (slice_from _ 1); cbn [bind];
      [intros [= <- <-]; reflexivity | discriminate | discriminate].
  - destruct (locked m); cbn [bind]; [|discriminate].
    intros [= <- <-]. cbn. rewrite length_app. cbn. lia.
Qed.

Lemma step_popTotal (tid : nat) (sys sys' : @system E) :
  step tid sys = Ok sys' -> popTotal sys' = popTotal sys.
Proof.
  unfold step, popTotal.
  destruct (nth_error (goroutines sys) tid) as [g|] eqn:Hg; [|now intros [= <-]].
  apply nth_error_split in Hg as (s1 & s2 & Hths & <-).
  destruct (stepGoroutine (memory sys) g) as [[m' g']| |] eqn:Hstep; cbn [bind];
    try discriminate.
  intros [= <-]. cbn [goroutines fst snd]. rewrite Hths, setNth_app.
  rewrite !map_app, !list_sum_app. cbn [map list_sum].
  now rewrite (stepGoroutine_popCount _ _ _ _ Hstep).
Qed.

Lemma run_popTotal (schedule : list nat) :
  forall sys sys', run schedule sys = Ok sys' -> popTotal sys' = popTotal sys.
Proof.
  induction schedule as [|tid schedule IH]; intros sys sys'; simpl.
  - now intros [= <-].
  - destruct (step tid sys) as [sys1| |] eqn:Hstep; cbn [bind]; try discriminate.
    intros Hrun. rewrite (IH _ _ Hrun). exact (step_popTotal tid _ _ Hstep).
Qed.

Lemma callsPop_repeat (pops : nat) : callsPop (repeat (@CallPop E) pops) = pops.
Proof. induction pops as [|n IH]; [reflexivity | cbn; now rewrite IH]. Qed.

Lemma popCount_producers (items : list E) :
  list_sum (map popCount
              (map (fun item : E => {| frameOf := Idle; calls := [CallAdd item];
                                       returned := [] |}) items)) = 0%nat.
Proof. induction items as [|item items IH]; [reflexivity | cbn; exact IH]. Qed.

Lemma start_popTotal (items : list E) (pops : nat) :
  popTotal (start items pops) = pops.
Proof.
  unfold popTotal, start. cbn [goroutines].
  rewrite map_cons.
  change (list_sum ?l) with (fold_right Nat.add 0%nat l) at 1. cbn [fold_right].
  change (fold_right Nat.add 0%nat ?l) with (list_sum l). rewrite popCount_producers.
  unfold popCount. cbn [returned frameOf calls inPop List.length].
  rewrite callsPop_repeat. lia.
Qed.

Lemma returnedItems_length (rs : list (option E * bool)) :
  (List.length (returnedItems rs) <= List.length rs)%nat.
Proof.
  induction rs as [|[[item|] found] rs IH]; simpl in *; lia.
Qed.

Lemma poppedBy_popTotal (sys : @system E) :
  (List.length (poppedBy sys) <= popTotal sys)%nat.
Proof.
  unfold poppedBy, popTotal.
  induction (goroutines sys) as [|g ths IH]; simpl; [lia|].
  rewrite length_app.
  pose proof (returnedItems_length (returned g)) as Hle.
  assert (Hcount : (List.length (returned g) <= popCount g)%nat)
    by (unfold popCount; lia).
  lia.
Qed.

(** C9, as the code has it. Take [N] producers that each call [Add] once,
    with items of distinct ordering values, and a consumer that calls [Pop]
    [pops] times, all on one fresh ascending queue, their statements
    interleaved by an arbitrary schedule, [Lock] waiting for the mutex.  No
    step panics, the queue is sorted after every schedule, and the calls of
    [Pop] have returned no more than [pops] elements.  Once every call has
    returned, draining the queue by [Pop] yields its elements in sorted
    order, and the elements that the consumer's calls returned together
    with those drained are the [N] items, each exactly once.  When no [Pop]
    runs among the [Add] calls ([pops = 0]), draining yields all [N] items,
    each once, in sorted order. *)
Theorem concurrent_Add_Pop (items : list E) (pops : nat) (schedule : list nat) :
  NoDup (map OrderingValue items) ->
  exists sys,
    run schedule (start items pops) = Ok sys
    /\ sortedBy OrderingAsc (OrderedQueue.queue (sharedQueue (memory sys)))
    /\ (List.length (poppedBy sys) <= pops)%nat
    /\ (finished sys = true ->
        exists drained,
          drain (S (List.length (OrderedQueue.queue (sharedQueue (memory sys)))))
                (sharedQueue (memory sys)) = Ok drained
          /\ sortedBy OrderingAsc drained
          /\ Permutation (poppedBy sys ++ drained) items
          /\ NoDup (poppedBy sys ++ drained)
          /\ (pops = 0%nat ->
              poppedBy sys = [] /\ Permutation drained items /\ NoDup drained)).
Proof.
  intros Hdistinct.
  destruct (run_consistent items schedule (start items pops) (start_consistent items pops))
    as (sys & Hrun & Hmode & Hsorted & Hacc & _).
  assert (Hbound : (List.length (poppedBy sys) <= pops)%nat).
  { pose proof (poppedBy_popTotal sys) as Hle.
    rewrite (run_popTotal _ _ _ Hrun), start_popTotal in Hle. exact Hle. }
  exists sys. split; [assumption|]. split; [assumption|]. split; [assumption|].
  intros Hfin. exists (OrderedQueue.queue (sharedQueue (memory sys))).
  assert (Hperm : Permutation
                    (poppedBy sys ++ OrderedQueue.queue (sharedQueue (memory sys))) items).
  { unfold poppedBy. rewrite <- finished_held by exact Hfin.
    rewrite Permutation_app_comm. exact Hacc. }
  assert (Hnodup : NoDup (poppedBy sys ++ OrderedQueue.queue (sharedQueue (memory sys)))).
  { eapply Permutation_NoDup; [apply Permutation_sym; exact Hperm|].
    now apply NoDup_of_map in Hdistinct. }
  split; [destruct (sharedQueue (memory sys)) as [s mode]; apply drain_all|].
  split; [assumption|]. split; [assumption|]. split; [assumption|].
  intros ->.
  assert (Hnone : poppedBy sys = [])
    by (destruct (poppedBy sys); [reflexivity | simpl in Hbound; lia]).
  rewrite Hnone in Hperm, Hnodup. cbn [app] in Hperm, Hnodup.
  repeat split; assumption.
Qed.
End GoroutineFacts.

Lemma concurrent_Add_Pop_witness :
  let items := [entry "a" 5; entry "b" 1; entry "c" 3] in
  let schedule :=
    [1; 2; 0; 1; 1; 3; 1; 1; 0; 0; 2; 0; 0; 0; 2; 2; 3; 2; 2; 2; 3; 3; 3; 3; 3]%nat in
  exists sys,
    run schedule (start items 1) = Ok sys
    /\ finished sys = true
    /\ poppedBy sys = [entry "a" 5]
    /\ exists drained,
         drain (S (List.length (OrderedQueue.queue (sharedQueue (memory sys)))))
               (sharedQueue (memory sys)) = Ok drained
         /\ sortedBy OrderingAsc drained
         /\ Permutation (poppedBy sys ++ drained) items.
Proof.
  intros items schedule.
  destruct (concurrent_Add_Pop items 1 schedule) as (sys & Hrun & _ & _ & Hfin).
  - unfold items. cbn.
    repeat (constructor; [cbn; intuition discriminate|]). constructor.
  - exists sys.
    assert (Hsys : finished sys = true /\ poppedBy sys = [entry "a" 5]).
    { vm_compute in Hrun. injection Hrun as <-. split; reflexivity. }
    destruct Hsys as [Hdone Hpopped].
    destruct (Hfin Hdone) as (drained & Hdrain & Hsorted & Hperm & _).
    repeat split; try assumption.
    exists drained. repeat split; assumption.
Defined.

(** C9, as the claim has it, fails: with a [Pop] of the consumer among the
    [Add] calls, the elements do not come out in sorted order.  Here the
    consumer pops the element of ordering value [5] while those of values [1]
    and [3] are still to be added; draining then yields [1] and [3], so that
    the elements come out in the order [5, 1, 3]. *)
Lemma concurrent_Pop_order_counterexample :
  let items := [entry "a" 5; entry "b" 1; entry "c" 3] in
  let schedule :=
    [1; 2; 0; 1; 1; 3; 1; 1; 0; 0; 2; 0; 0; 0; 2; 2; 3; 2; 2; 2; 3; 3; 3; 3; 3]%nat in
  exists sys drained,
    NoDup (map OrderingValue items)
    /\ run schedule (start items 1) = Ok sys
    /\ finished sys = true
    /\ drain (S (List.length (OrderedQueue.queue (sharedQueue (memory sys)))))
             (sharedQueue (memory sys)) = Ok drained
    /\ poppedBy sys = [entry "a" 5]
    /\ drained = [entry "b" 1; entry "c" 3]
    /\ ~ sortedBy OrderingAsc (poppedBy sys ++ drained).
Proof.
  cbv zeta. eexists. eexists.
  split; [cbn; repeat (constructor; [cbn; intuition discriminate|]); constructor|].
  split; [vm_compute; reflexivity|].
  split; [reflexivity|]. split; [vm_compute; reflexivity|].
  split; [reflexivity|]. split; [reflexivity|].
  intros Hsorted. apply StronglySorted_inv in Hsorted as [_ Hfront].
  apply Forall_cons_iff in Hfront as [Hfront _]. cbn in Hfront. lia.
Qed.

(** ** The example of the specification

    Adding elements with ordering values [5, 1, 3] to an ascending queue
    gives them in the order [1, 3, 5]; removing the one of value [3] then
    finds it in the window and leaves [1, 5]. *)

Example Add_5_1_3 :
  addAll (newQueue OrderingAsc) [entry "x" 5; entry "y" 1; entry "z" 3]
  = Ok (OrderedQueue.mk [entry "y" 1; entry "z" 3; entry "x" 5] OrderingAsc).
Proof. reflexivity. Qed.

Example Remove_3 :
  OrderedQueue.Remove
    (OrderedQueue.mk [entry "y" 1; entry "z" 3; entry "x" 5] OrderingAsc) (entry "z" 3)
  = Ok (true, OrderedQueue.mk [entry "y" 1; entry "x" 5] OrderingAsc).
Proof. reflexivity. Qed.

Example Add_equal_values_descending :
  addAll (newQueue OrderingDesc)
    [entry "a" 5; entry "b" 1; entry "c" 3; entry "d" 3; entry "e" 0; entry "f" 9;
     entry "g" 3]
  = Ok (OrderedQueue.mk
          [entry "f" 9; entry "a" 5; entry "c" 3; entry "d" 3; entry "g" 3;
           entry "b" 1; entry "e" 0] OrderingDesc).
Proof. reflexivity. Qed.

(** ** Further properties of the ordered queue *)

Section OrderedQueueMore.
Context {E : Type} `{IElement E}.
Import OrderedQueue.

Lemma index_middle (l1 l2 : list E) (e : E) :
  index (l1 ++ e :: l2) (len l1) = Ok e.
Proof.
  rewrite index_app_right by lia. rewrite Z.sub_diag. apply index_head.
Qed.

Lemma firstn_middle (l1 l2 : list E) (e : E) :
  firstn (Z.to_nat (len l1)) (l1 ++ e :: l2) = l1
  /\ skipn (Z.to_nat (len l1 + 1)) (l1 ++ e :: l2) = l2.
Proof.
  unfold len. split.
  - rewrite Nat2Z.id, firstn_app, Nat.sub_diag, firstn_all. simpl. apply app_nil_r.
  - replace (Z.to_nat (Z.of_nat (List.length l1) + 1)) with (List.length l1 + 1)%nat by lia.
    rewrite skipn_app, skipn_all2 by lia.
    replace (List.length l1 + 1 - List.length l1)%nat with 1%nat by lia. reflexivity.
Qed.

(** A position that holds an element splits the slice around it. *)
Lemma split_index (s : list E) (p : Z) (e : E) :
  index s p = Ok e ->
  s = firstn (Z.to_nat p) s ++ e :: skipn (Z.to_nat (p + 1)) s.
Proof.
  intros Hi. rewrite <- (skipn_index s p e Hi). symmetry. apply firstn_skipn.
Qed.

Lemma sortedBy_remove (mode : OrderingMode) (l1 l2 : list E) (e : E) :
  sortedBy mode (l1 ++ e :: l2) -> sortedBy mode (l1 ++ l2).
Proof.
  intros Hs. apply sortedBy_app_inv in Hs as (S1 & S2 & F).
  apply StronglySorted_inv in S2 as [S2 _].
  apply sortedBy_app; try assumption.
  eapply Forall_impl; [|exact F]. intros a Ha.
  now apply Forall_cons_iff in Ha as [_ Ha].
Qed.

(** X1. On a sorted queue [Pop] returns the front element, which may stand
    before every element that remains (the smallest ordering value of an
    ascending queue, the largest of a descending one), and leaves the others,
    still sorted; [First] returns the same element and changes nothing.  On
    the empty queue both return [(nil, false)]. *)
Theorem Pop_First_front (s : list E) (mode : OrderingMode) :
  sortedBy mode s ->
  match s with
  | [] =>
      Pop (mk s mode) = Ok ((None, false), mk s mode)
      /\ First (mk s mode) = Ok (None, false)
  | e :: rest =>
      Pop (mk s mode) = Ok ((Some e, true), mk rest mode)
      /\ First (mk s mode) = Ok (Some e, true)
      /\ Forall (ordered mode e) rest
      /\ sortedBy mode rest
  end.
Proof.
  intros Hs. destruct s as [|e rest].
  - split; reflexivity.
  - apply StronglySorted_inv in Hs as [Hrest He].
    split; [apply Pop_cons | split; [|split; assumption]].
    unfold First. cbn [queue]. rewrite len_cons. pose proof (len_nonneg rest).
    destruct (Z.leb_spec (len rest + 1) 0); [lia|].
    now rewrite index_head.
Qed.

(** X2. [Add] succeeds on every queue, sorted or not (the ordering values of
    stored elements may have changed since they were added): the queue gains
    the new element once, at the position the search returns, the elements
    it had stay in their order, and the size grows by one; [Push] does the
    same and returns [true]. *)
Theorem Add_inserts_once (q : t E) (item : E) :
  exists l1 l2,
    queue q = l1 ++ l2
    /\ Add q item = Ok (mk (l1 ++ item :: l2) (ordering q))
    /\ Push q item = Ok (true, mk (l1 ++ item :: l2) (ordering q))
    /\ GetSize (mk (l1 ++ item :: l2) (ordering q)) = GetSize q + 1.
Proof.
  destruct (Add_total q item) as (l1 & l2 & Hq & Hadd).
  exists l1, l2. repeat split; try assumption.
  - unfold Push. now rewrite Hadd.
  - unfold GetSize. cbn [queue]. rewrite Hq, !len_app, len_cons. lia.
Qed.

(** X3. Adding an element to a sorted queue that holds no element of its
    identity and removing it again gives the queue back: [Remove] finds the
    element in its window and returns [true], and before that [GetOne]
    reports it as found. *)
Theorem Add_then_Remove (q : t E) (item : E) :
  sortedBy (ordering q) (queue q) ->
  Forall (fun e => GetID e <> GetID item) (queue q) ->
  exists q',
    Add q item = Ok q'
    /\ GetOne q' item = Ok (item, true)
    /\ Remove q' item = Ok (true, q).
Proof.
  intros Hs Hid.
  destruct (sorted_partition (ordering q) item (queue q) Hs) as (l1 & l2 & Hq & H1 & H2).
  exists (mk (l1 ++ item :: l2) (ordering q)).
  assert (Hadd : Add q item = Ok (mk (l1 ++ item :: l2) (ordering q))).
  { unfold Add. rewrite Hq. now rewrite pushItemToOrderedQueue_partitioned. }
  assert (Hself : goesLeft (ordering q) item item = false)
    by (destruct (ordering q); simpl; lia).
  assert (Hest : findOrderedQueueInsertingIndex (l1 ++ item :: l2)
                   (len (l1 ++ item :: l2)) item (ordering q) = Ok (len l1 + 1)).
  { change (l1 ++ item :: l2) with (l1 ++ [item] ++ l2). rewrite app_assoc.
    replace (len l1 + 1) with (len (l1 ++ [item])) by (rewrite len_app; reflexivity).
    apply findOrderedQueueInsertingIndex_partitioned.
    - rewrite !len_app. pose proof (len_nonneg l1). pose proof (len_nonneg l2).
      unfold len at 2. simpl. lia.
    - apply partition_index; [|assumption].
      apply Forall_app. split; [assumption | now constructor]. }
  assert (Hl2 : Forall (fun e => GetID e <> GetID item) l2)
    by (rewrite Hq in Hid; now apply Forall_app in Hid as [_ Hid]).
  assert (Hwindow : forall p, matchInWindow (l1 ++ item :: l2) item (len l1 + 1) p ->
                              p = len l1).
  { intros p (Hp & e & Hi & He).
    destruct (Z.eq_dec p (len l1)) as [|Hne]; [assumption|]. exfalso.
    change (l1 ++ item :: l2) with (l1 ++ [item] ++ l2) in Hi. rewrite app_assoc in Hi.
    rewrite index_app_right in Hi by (rewrite len_app; unfold len at 2; simpl; lia).
    apply index_In in Hi. rewrite Forall_forall in Hl2.
    apply (Hl2 e Hi). now symmetry. }
  assert (Hhere : matchInWindow (l1 ++ item :: l2) item (len l1 + 1) (len l1)).
  { split; [lia|]. exists item. split; [apply index_middle | reflexivity]. }
  split; [assumption|]. split.
  - destruct (GetOne_cases (mk (l1 ++ item :: l2) (ordering q)) item)
      as (est & found & Hest' & Hget & Hfound).
    cbn [queue ordering] in *. rewrite Hest in Hest'. injection Hest' as <-.
    rewrite Hget. f_equal. f_equal. apply Hfound. now exists (len l1).
  - destruct (Remove_cases (mk (l1 ++ item :: l2) (ordering q)) item)
      as (est & Hest' & [(p & Hm & Hrem) | [Hnone _]]);
      cbn [queue ordering] in *; rewrite Hest in Hest'; injection Hest' as <-.
    + rewrite (Hwindow p Hm) in Hrem. rewrite Hrem.
      destruct (firstn_middle l1 l2 item) as [-> ->].
      destruct q as [s mode]. cbn [queue ordering] in *. now rewrite Hq.
    + exfalso. exact (Hnone _ Hhere).
Qed.

(** X4. [Remove] never panics; it takes out one element, of the identity
    asked for, or none (and then returns [false] and leaves the queue as it
    is); the other elements keep their order, the mode is kept, and a sorted
    queue stays sorted. *)
Theorem Remove_keeps_order (q : t E) (item : E) :
  exists found q',
    Remove q item = Ok (found, q')
    /\ ordering q' = ordering q
    /\ (found = false -> q' = q)
    /\ (found = true ->
        exists l1 e l2,
          queue q = l1 ++ e :: l2
          /\ queue q' = l1 ++ l2
          /\ GetID e = GetID item
          /\ GetSize q' = GetSize q - 1)
    /\ (sortedBy (ordering q) (queue q) -> sortedBy (ordering q) (queue q')).
Proof.
  destruct (Remove_cases q item) as (est & _ & [(p & Hm & Hrem) | [_ Hrem]]).
  - destruct Hm as (_ & e & Hi & He).
    pose proof (split_index _ _ _ Hi) as Hsplit.
    eexists true, _. split; [exact Hrem|]. cbn [queue ordering].
    repeat split; [discriminate | |].
    + intros _. eexists _, e, _. repeat split; [exact Hsplit | now symmetry|].
      unfold GetSize. cbn [queue]. rewrite Hsplit at 3.
      rewrite !len_app, len_cons. lia.
    + intros Hs. rewrite Hsplit in Hs. now apply sortedBy_remove in Hs.
  - exists false, q. repeat split; auto; discriminate.
Qed.
(** X19. An element stored in a sorted queue under an ordering value that
    no other element has is found from an argument of its identity and
    ordering value: [GetOne] reports [true], and [Remove] returns [true]; when
    no element behind it has that identity, [Remove] takes out this element
    and leaves the others as they are. *)
Theorem Remove_finds_unique_value (mode : OrderingMode) (a b : list E) (e item : E) :
  sortedBy mode (a ++ e :: b) ->
  GetID e = GetID item ->
  OrderingValue e = OrderingValue item ->
  Forall (fun x => OrderingValue x <> OrderingValue item) (a ++ b) ->
  GetOne (mk (a ++ e :: b) mode) item = Ok (item, true)
  /\ (exists q', Remove (mk (a ++ e :: b) mode) item = Ok (true, q'))
  /\ (Forall (fun x => GetID x <> GetID item) b ->
      Remove (mk (a ++ e :: b) mode) item = Ok (true, mk (a ++ b) mode)).
Proof.
  intros Hs Hid Hval Hother.
  apply Forall_app in Hother as [Ha Hb].
  destruct (sortedBy_app_inv _ _ _ Hs) as (_ & Seb & Fa).
  apply StronglySorted_inv in Seb as [_ Feb].
  assert (Hleft_a : Forall (fun x => goesLeft mode item x = false) (a ++ [e])).
  { apply Forall_app. split.
    - rewrite Forall_forall in *. intros x Hx.
      specialize (Fa x Hx). apply Forall_cons_iff in Fa as [Fxe _].
      specialize (Ha x Hx). destruct mode; simpl in *; lia.
    - constructor; [|constructor]. destruct mode; simpl; lia. }
  assert (Hleft_b : Forall (fun x => goesLeft mode item x = true) b).
  { rewrite Forall_forall in *. intros x Hx.
    specialize (Feb x Hx). specialize (Hb x Hx). destruct mode; simpl in *; lia. }
  assert (Hest : findOrderedQueueInsertingIndex (a ++ e :: b) (len (a ++ e :: b)) item mode
                 = Ok (len a + 1)).
  { change (a ++ e :: b) with (a ++ [e] ++ b). rewrite app_assoc.
    replace (len a + 1) with (len (a ++ [e])) by (rewrite len_app; reflexivity).
    apply findOrderedQueueInsertingIndex_partitioned.
    - rewrite !len_app. pose proof (len_nonneg a). pose proof (len_nonneg b).
      unfold len at 2. simpl. lia.
    - now apply partition_index. }
  assert (Hhere : matchInWindow (a ++ e :: b) item (len a + 1) (len a)).
  { split; [lia|]. exists e. split; [apply index_middle | now symmetry]. }
  assert (Hget : GetOne (mk (a ++ e :: b) mode) item = Ok (item, true)).
  { destruct (GetOne_cases (mk (a ++ e :: b) mode) item)
      as (est & found & Hest' & Hget & Hfound).
    cbn [queue ordering] in *. rewrite Hest in Hest'. injection Hest' as <-.
    rewrite Hget. f_equal. f_equal. apply Hfound. now exists (len a). }
  destruct (Remove_cases (mk (a ++ e :: b) mode) item)
    as (est & Hest' & [(p & Hm & Hrem) | [Hnone _]]);
    cbn [queue ordering] in *; rewrite Hest in Hest'; injection Hest' as <-;
    [|exfalso; exact (Hnone _ Hhere)].
  split; [assumption|]. split; [eauto|].
  intros Hids.
  assert (Hp : p = len a).
  { destruct Hm as (Hp & x & Hi & Hx).
    destruct (Z.eq_dec p (len a)) as [|Hne]; [assumption|]. exfalso.
    change (a ++ e :: b) with (a ++ [e] ++ b) in Hi. rewrite app_assoc in Hi.
    rewrite index_app_right in Hi by (rewrite len_app; unfold len at 2; simpl; lia).
    apply index_In in Hi. rewrite Forall_forall in Hids.
    apply (Hids x Hi). now symmetry. }
  rewrite Hrem, Hp. destruct (firstn_middle a b e) as [-> ->]. reflexivity.
Qed.
End OrderedQueueMore.

Lemma Pop_First_front_witness :
  OrderedQueue.Pop (OrderedQueue.mk [entry "a" 1; entry "b" 2] OrderingAsc)
  = Ok ((Some (entry "a" 1), true), OrderedQueue.mk [entry "b" 2] OrderingAsc)
  /\ OrderedQueue.First (OrderedQueue.mk [entry "a" 1; entry "b" 2] OrderingAsc)
     = Ok (Some (entry "a" 1), true).
Proof.
  destruct (Pop_First_front [entry "a" 1; entry "b" 2] OrderingAsc) as (Hpop & Hfirst & _).
  - unfold sortedBy. repeat (constructor; [|repeat (constructor; [cbn; lia|]); constructor]).
    constructor.
  - split; [exact Hpop | exact Hfirst].
Defined.

Lemma Add_then_Remove_witness :
  let q := OrderedQueue.mk [entry "a" 1; entry "b" 3; entry "c" 3; entry "d" 7] OrderingAsc in
  exists q',
    OrderedQueue.Add q (entry "x" 3) = Ok q'
    /\ OrderedQueue.GetOne q' (entry "x" 3) = Ok (entry "x" 3, true)
    /\ OrderedQueue.Remove q' (entry "x" 3) = Ok (true, q).
Proof.
  intros q. apply (Add_then_Remove q (entry "x" 3)).
  - unfold q, sortedBy. cbn.
    repeat (constructor; [|repeat (constructor; [cbn; lia|]); constructor]).
    constructor.
  - unfold q. cbn. repeat (constructor; [cbn; discriminate|]). constructor.
Defined.

Lemma Remove_finds_unique_value_witness :
  let a := [entry "a" 1; entry "b" 3] in
  let b := [entry "d" 7; entry "e" 9] in
  OrderedQueue.GetOne (OrderedQueue.mk (a ++ entry "c" 5 :: b) OrderingAsc) (entry "c" 5)
  = Ok (entry "c" 5, true)
  /\ (exists q',
         OrderedQueue.Remove (OrderedQueue.mk (a ++ entry "c" 5 :: b) OrderingAsc)
           (entry "c" 5) = Ok (true, q'))
  /\ (Forall (fun x => GetID x <> GetID (entry "c" 5)) b ->
      OrderedQueue.Remove (OrderedQueue.mk (a ++ entry "c" 5 :: b) OrderingAsc)
        (entry "c" 5) = Ok (true, OrderedQueue.mk (a ++ b) OrderingAsc)).
Proof.
  intros a b.
  apply (Remove_finds_unique_value OrderingAsc a b (entry "c" 5) (entry "c" 5)).
  - unfold a, b, sortedBy. cbn [app].
    repeat (apply SSorted_cons;
            [|repeat (apply Forall_cons; [cbn; lia|]); apply Forall_nil]).
    apply SSorted_nil.
  - reflexivity.
  - reflexivity.
  - unfold a, b. cbn [app].
    repeat (apply Forall_cons; [cbn; lia|]). apply Forall_nil.
Defined.

(** ** Lookup, search and cuts on both queues *)

Section BothQueues.
Context {E : Type} `{IElement E}.

Lemma getElementLoop_cases (s : list E) (ID : string) :
  (exists l1 e l2,
      s = l1 ++ e :: l2
      /\ Forall (fun x => GetID x <> ID) l1
      /\ GetID e = ID
      /\ OrderedQueue.getElementLoop s ID = (Some e, true))
  \/ (Forall (fun x => GetID x <> ID) s
      /\ OrderedQueue.getElementLoop s ID = (None, false)).
Proof.
  induction s as [|a s IH]; simpl.
  - right. split; [constructor | reflexivity].
  - destruct (String.eqb_spec (GetID a) ID) as [Ha|Ha].
    + left. exists [], a, s. repeat split; [constructor | assumption].
    + destruct IH as [(l1 & e & l2 & -> & Hl1 & He & Hget) | [Hnone Hget]].
      * left. exists (a :: l1), e, l2. repeat split; try assumption.
        now constructor.
      * right. split; [now constructor | assumption].
Qed.

(** X5. [GetElement(ID)], on an ordered and on a FIFO queue alike, scans the
    whole queue from the front: it returns the first element whose identity
    is [ID] together with [true], or [(nil, false)] when no element has that
    identity. *)
Theorem GetElement_first_match (s : list E) (mode : OrderingMode) (ID : string) :
  FIFOQueue.GetElement (FIFOQueue.mk s) ID
  = OrderedQueue.GetElement (OrderedQueue.mk s mode) ID
  /\ ((exists l1 e l2,
          s = l1 ++ e :: l2
          /\ Forall (fun x => GetID x <> ID) l1
          /\ GetID e = ID
          /\ OrderedQueue.GetElement (OrderedQueue.mk s mode) ID = (Some e, true))
      \/ (Forall (fun x => GetID x <> ID) s
          /\ OrderedQueue.GetElement (OrderedQueue.mk s mode) ID = (None, false))).
Proof.
  split; [reflexivity|]. apply getElementLoop_cases.
Qed.

(** X6. [GetOne] on an ordered queue never reports an identity that the
    queue does not hold: when it returns [true], the full scan of
    [GetElement] finds an element of that identity too. *)
Theorem GetOne_found_is_present (q : OrderedQueue.t E) (item : E) :
  OrderedQueue.GetOne q item = Ok (item, true) ->
  exists e,
    In e (OrderedQueue.queue q)
    /\ GetID e = GetID item
    /\ OrderedQueue.GetElement q (GetID item) = (Some e, true).
Proof.
  intros Hget.
  destruct (GetOne_cases q item) as (est & found & _ & Hget' & Hfound).
  rewrite Hget in Hget'. injection Hget' as <-.
  destruct (proj1 Hfound eq_refl) as (p & _ & e0 & Hi & He0).
  apply index_In in Hi.
  unfold OrderedQueue.GetElement.
  destruct (getElementLoop_cases (OrderedQueue.queue q) (GetID item))
    as [(l1 & e & l2 & Hq & _ & He & Hloop) | [Hnone _]].
  - exists e. repeat split; try assumption.
    rewrite Hq. apply in_elt.
  - rewrite Forall_forall in Hnone. exfalso. apply (Hnone e0 Hi). now symmetry.
Qed.

Lemma findElementsLoop_filter (evaluate : E -> bool) (rest : list E) :
  forall elements,
    OrderedQueue.findElementsLoop rest evaluate elements
    = elements ++ filter evaluate rest.
Proof.
  induction rest as [|e rest IH]; intros elements; simpl.
  - now rewrite app_nil_r.
  - rewrite IH. destruct (evaluate e); [now rewrite <- app_assoc | reflexivity].
Qed.

Lemma sortedBy_filter (mode : OrderingMode) (f : E -> bool) (s : list E) :
  sortedBy mode s -> sortedBy mode (filter f s).
Proof.
  unfold sortedBy. induction 1 as [|a s Hs IH Ha]; simpl; [constructor|].
  destruct (f a); [|assumption].
  constructor; [assumption|].
  rewrite Forall_forall in *. intros x Hx. apply Ha.
  now apply filter_In in Hx as [Hx _].
Qed.

(** X7. [FindElements(cmp)], on an ordered and on a FIFO queue alike,
    returns the empty slice for a nil [cmp]; otherwise it returns exactly the
    elements that [cmp] accepts, in queue order, so that the result of a
    sorted queue is sorted. *)
Theorem FindElements_filter (s : list E) (mode : OrderingMode) (evaluate : E -> bool) :
  OrderedQueue.FindElements (OrderedQueue.mk s mode) None = []
  /\ FIFOQueue.FindElements (FIFOQueue.mk s) None = []
  /\ OrderedQueue.FindElements (OrderedQueue.mk s mode) (Some evaluate) = filter evaluate s
  /\ FIFOQueue.FindElements (FIFOQueue.mk s) (Some evaluate) = filter evaluate s
  /\ (sortedBy mode s ->
      sortedBy mode (OrderedQueue.FindElements (OrderedQueue.mk s mode) (Some evaluate))).
Proof.
  assert (Hloop : OrderedQueue.FindElements (OrderedQueue.mk s mode) (Some evaluate)
                  = filter evaluate s)
    by (unfold OrderedQueue.FindElements; cbn [OrderedQueue.queue];
        now rewrite findElementsLoop_filter).
  split; [reflexivity|]. split; [reflexivity|]. split; [exact Hloop|].
  split; [exact Hloop|].
  intros Hs. rewrite Hloop. now apply sortedBy_filter.
Qed.

(** X8. Whenever [CutBefore] or [CutAfter] returns, on an ordered or a FIFO
    queue, nothing is lost or repeated: the cut followed by what is left
    (for [CutAfter]: what is left followed by the cut) is the queue as it
    was, and the mode is kept.  They panic exactly for an index above the
    length. *)
Theorem Cut_conserves (s : list E) (mode : OrderingMode) (i : Z) :
  match OrderedQueue.CutBefore (OrderedQueue.mk s mode) i with
  | Ok (cuts, q') =>
      i <= len s /\ cuts ++ OrderedQueue.queue q' = s /\ OrderedQueue.ordering q' = mode
  | Panic => len s < i
  | Timeout => False
  end
  /\ match FIFOQueue.CutBefore (FIFOQueue.mk s) i with
     | Ok (cuts, q') => i <= len s /\ cuts ++ FIFOQueue.queue q' = s
     | Panic => len s < i
     | Timeout => False
     end
  /\ match OrderedQueue.CutAfter (OrderedQueue.mk s mode) i with
     | Ok (cuts, q') =>
         i <= len s /\ OrderedQueue.queue q' ++ cuts = s /\ OrderedQueue.ordering q' = mode
     | Panic => len s < i
     | Timeout => False
     end
  /\ match FIFOQueue.CutAfter (FIFOQueue.mk s) i with
     | Ok (cuts, q') => i <= len s /\ FIFOQueue.queue q' ++ cuts = s
     | Panic => len s < i
     | Timeout => False
     end.
Proof.
  pose proof (len_nonneg s) as Hlen.
  destruct (CutBefore_cases s mode i) as [-> ->].
  destruct (CutAfter_cases s mode i) as [-> ->].
  destruct (Z.ltb_spec i 0); [|destruct (Z.leb_spec i (len s))];
    cbn; rewrite ?app_nil_r; repeat split; try reflexivity; lia.
Qed.

(** The non-trivial case of [PopMany]. *)
Lemma PopMany_some (s : list E) (mode : OrderingMode) (maxResults : Z) :
  0 < maxResults -> 0 < len s ->
  let n := Z.to_nat (Z.min maxResults (len s)) in
  OrderedQueue.PopMany (OrderedQueue.mk s mode) maxResults
  = Ok ((Some (firstn n s), Z.of_nat n), OrderedQueue.mk (skipn n s) mode).
Proof.
  intros Hm Hs n. unfold OrderedQueue.PopMany.
  cbn [OrderedQueue.queue OrderedQueue.ordering].
  destruct (Z.geb_spec 0 (len s)); [lia|]. destruct (Z.geb_spec 0 maxResults); [lia|].
  cbn [orb].
  assert (Hn : (if len s >? maxResults then maxResults else len s) = Z.of_nat n)
    by (unfold n; destruct (Z.gtb_spec (len s) maxResults); lia).
  rewrite Hn, Nat2Z.id.
  rewrite copyItems_ok by lia. rewrite slice_from_skipn by lia.
  rewrite Nat2Z.id. reflexivity.
Qed.

Lemma popTimes_firstn (n : nat) :
  forall (s : list E) (mode : OrderingMode),
    (n <= List.length s)%nat ->
    popTimes n (OrderedQueue.mk s mode)
    = Ok (firstn n s, OrderedQueue.mk (skipn n s) mode).
Proof.
  induction n as [|n IH]; intros s mode Hn; [reflexivity|].
  destruct s as [|e s]; [simpl in Hn; lia|].
  cbn [popTimes]. rewrite Pop_cons. cbn [bind fst snd].
  rewrite IH by (simpl in Hn; lia). reflexivity.
Qed.

(** X9. [PopMany(maxResults)] with a positive [maxResults] on a queue that
    is not empty does what as many calls of [Pop] do one after the other: it
    returns the same elements in the same order and leaves the same queue,
    and the elements returned followed by those left are the queue as it
    was. *)
Theorem PopMany_is_repeated_Pop (s : list E) (mode : OrderingMode) (maxResults : Z) :
  0 < maxResults -> s <> [] ->
  exists items q',
    OrderedQueue.PopMany (OrderedQueue.mk s mode) maxResults
    = Ok ((Some items, len items), q')
    /\ len items = Z.min maxResults (len s)
    /\ popTimes (List.length items) (OrderedQueue.mk s mode) = Ok (items, q')
    /\ s = items ++ OrderedQueue.queue q'.
Proof.
  intros Hm Hs.
  assert (Hlen : 0 < len s).
  { destruct s; [contradiction | rewrite len_cons; pose proof (len_nonneg s); lia]. }
  set (n := Z.to_nat (Z.min maxResults (len s))).
  assert (Hn : (n <= List.length s)%nat) by (unfold n, len in *; lia).
  assert (Hitems : List.length (firstn n s) = n) by (rewrite length_firstn; lia).
  exists (firstn n s), (OrderedQueue.mk (skipn n s) mode).
  repeat split.
  - rewrite (PopMany_some s mode maxResults Hm Hlen). fold n.
    replace (len (firstn n s)) with (Z.of_nat n) by (unfold len; now rewrite Hitems).
    reflexivity.
  - replace (len (firstn n s)) with (Z.of_nat n) by (unfold len; now rewrite Hitems).
    unfold n. lia.
  - rewrite Hitems. now apply popTimes_firstn.
  - cbn [OrderedQueue.queue]. symmetry. apply firstn_skipn.
Qed.

(** X10. After any sequence of [Add] calls on a fresh queue the size is the
    number of calls, and [Pop] repeated until the queue is empty returns the
    elements added, each once, in sorted order, those of equal ordering
    value in the order in which they were added. *)
Theorem drain_after_adds (mode : OrderingMode) (items : list E) :
  exists q drained,
    addAll (newQueue mode) items = Ok q
    /\ OrderedQueue.GetSize q = len items
    /\ drain (S (List.length items)) q = Ok drained
    /\ sortedBy mode drained
    /\ Permutation drained items
    /\ forall v, withValue v drained = withValue v items.
Proof.
  destruct (newQueue_sorted (E:=E) mode) as [Hmode Hnew].
  destruct (addAll_sorted items (newQueue mode)) as (q & Hq & Ho & Hs & Hperm & Hstable);
    [now rewrite Hmode|].
  assert (Hempty : OrderedQueue.queue (newQueue (E:=E) mode) = [])
    by (destruct mode; reflexivity).
  rewrite Hmode in Hs. rewrite Hempty in Hperm, Hstable. cbn [app] in Hperm, Hstable.
  exists q, (OrderedQueue.queue q).
  pose proof (Permutation_length Hperm) as Hlen.
  repeat split; try assumption.
  - unfold OrderedQueue.GetSize, len. now rewrite Hlen.
  - rewrite <- Hlen. destruct q as [s m]. apply drain_all.
Qed.
End BothQueues.

Lemma GetOne_found_is_present_witness :
  let q := OrderedQueue.mk [entry "a" 1; entry "b" 2] OrderingAsc in
  exists e,
    In e (OrderedQueue.queue q)
    /\ GetID e = GetID (entry "b" 2)
    /\ OrderedQueue.GetElement q (GetID (entry "b" 2)) = (Some e, true).
Proof.
  intros q. apply (GetOne_found_is_present q (entry "b" 2)). reflexivity.
Defined.

Lemma PopMany_is_repeated_Pop_witness :
  let s := [entry "a" 1; entry "b" 2; entry "c" 3] in
  exists items q',
    OrderedQueue.PopMany (OrderedQueue.mk s OrderingAsc) 2
    = Ok ((Some items, len items), q')
    /\ len items = Z.min 2 (len s)
    /\ popTimes (List.length items) (OrderedQueue.mk s OrderingAsc) = Ok (items, q')
    /\ s = items ++ OrderedQueue.queue q'.
Proof.
  intros s. apply (PopMany_is_repeated_Pop s OrderingAsc 2); [lia | discriminate].
Defined.

(** ** The FIFO queue *)

Section FIFOFacts.
Context {E : Type} `{IElement E}.
Import FIFOQueue.

Lemma FIFO_Pop_cons (e : E) (s : list E) :
  Pop (mk (e :: s)) = Ok ((Some e, true), mk s).
Proof.
  unfold Pop. cbn [queue]. pose proof (len_nonneg s).
  rewrite len_cons. destruct (Z.leb_spec (len s + 1) 0); [lia|].
  rewrite index_head. cbn [bind].
  change (e :: s) with ([e] ++ s). change 1 with (len [e]).
  now rewrite slice_from_app.
Qed.

Lemma pushAll_queue (items : list E) :
  forall q, queue (pushAll q items) = queue q ++ items.
Proof.
  induction items as [|item items IH]; intros q; simpl.
  - now rewrite app_nil_r.
  - rewrite IH. cbn [queue]. now rewrite <- app_assoc.
Qed.

Lemma drainFIFO_all (s : list E) :
  drainFIFO (S (List.length s)) (mk s) = Ok s.
Proof.
  induction s as [|e s IH]; [reflexivity|].
  change (drainFIFO (S (List.length (e :: s))) (mk (e :: s)))
    with (r <- Pop (mk (e :: s)) ;;
          match fst r with
          | (Some item, true) =>
              items <- drainFIFO (S (List.length s)) (snd r) ;; Ok (item :: items)
          | _ => Ok []
          end).
  rewrite FIFO_Pop_cons. cbn [bind fst snd]. now rewrite IH.
Qed.

(** X11. A FIFO queue keeps the order of arrival: after a sequence of
    [Push] calls [Elements()] is what the queue held followed by the
    elements pushed, in the order of the calls, the size has grown by their
    number, and [Pop] repeated until the queue is empty returns them in that
    same order. *)
Theorem FIFO_keeps_arrival_order (q : t E) (items : list E) :
  Elements (pushAll q items) = Elements q ++ items
  /\ GetSize (pushAll q items) = GetSize q + len items
  /\ drainFIFO (S (List.length (queue q ++ items))) (pushAll q items)
     = Ok (queue q ++ items).
Proof.
  unfold Elements, GetSize. cbn [app]. rewrite pushAll_queue.
  repeat split; [apply len_app|].
  pose proof (pushAll_queue items q) as Hq.
  destruct (pushAll q items) as [s]. cbn [queue] in Hq. subst s.
  apply drainFIFO_all.
Qed.

Lemma removeScan_cases (s : list E) (item : E) :
  forall i,
    (exists l1 e l2,
        s = l1 ++ e :: l2
        /\ Forall (fun x => GetID x <> GetID item) l1
        /\ GetID e = GetID item
        /\ removeScan s item i = Some (i + len l1))
    \/ (Forall (fun x => GetID x <> GetID item) s
        /\ removeScan s item i = None).
Proof.
  induction s as [|a s IH]; intros i; simpl.
  - right. split; [constructor | reflexivity].
  - destruct (String.eqb_spec (GetID a) (GetID item)) as [Ha|Ha].
    + left. exists [], a, s. repeat split; [constructor | assumption|].
      rewrite len_nil. f_equal. lia.
    + destruct (IH (i + 1)) as [(l1 & e & l2 & -> & Hl1 & He & Hscan) | [Hnone Hscan]].
      * left. exists (a :: l1), e, l2. repeat split; try assumption.
        -- now constructor.
        -- rewrite Hscan, len_cons. f_equal. lia.
      * right. split; [now constructor | assumption].
Qed.

(** X12. [Remove] on a FIFO queue scans the whole queue: it returns [true]
    exactly when some element has the identity asked for, takes out the
    first such element and no other, keeps the order of the rest, and never
    panics. *)
Theorem FIFO_Remove_first_match (s : list E) (item : E) :
  (exists l1 e l2,
      s = l1 ++ e :: l2
      /\ Forall (fun x => GetID x <> GetID item) l1
      /\ GetID e = GetID item
      /\ Remove (mk s) item = Ok (true, mk (l1 ++ l2)))
  \/ (Forall (fun x => GetID x <> GetID item) s
      /\ Remove (mk s) item = Ok (false, mk s)).
Proof.
  unfold Remove. cbn [queue].
  destruct (removeScan_cases s item 0)
    as [(l1 & e & l2 & -> & Hl1 & He & Hscan) | [Hnone Hscan]]; rewrite Hscan.
  - left. exists l1, e, l2. repeat split; try assumption.
    rewrite Z.add_0_l. pose proof (len_nonneg l1). pose proof (len_nonneg l2).
    fold (slice_to (l1 ++ e :: l2) (len l1)).
    rewrite slice_to_firstn, slice_from_skipn
      by (rewrite len_app, len_cons; lia).
    destruct (firstn_middle l1 l2 e) as [-> ->]. reflexivity.
  - right. split; [assumption | reflexivity].
Qed.

Lemma removeScan_existsb (s : list E) (item : E) :
  forall i,
    match removeScan s item i with
    | Some _ => true
    | None => false
    end = existsb (fun e => String.eqb (GetID e) (GetID item)) s.
Proof.
  induction s as [|a s IH]; intros i; simpl; [reflexivity|].
  destruct (String.eqb (GetID a) (GetID item)); [reflexivity | apply IH].
Qed.

Lemma getElementLoop_existsb (s : list E) (ID : string) :
  snd (getElementLoop s ID) = existsb (fun e => String.eqb (GetID e) ID) s.
Proof.
  induction s as [|a s IH]; simpl; [reflexivity|].
  destruct (String.eqb (GetID a) ID); [reflexivity | apply IH].
Qed.

(** X13. [GetOne] on a FIFO queue reports [true] exactly when some element
    of the queue has the identity of its argument, as [GetElement] does; it
    then returns the argument itself, and [nil] otherwise. *)
Theorem FIFO_GetOne_present (s : list E) (item : E) :
  let present := existsb (fun e => String.eqb (GetID e) (GetID item)) s in
  GetOne (mk s) item = (if present then (Some item, true) else (None, false))
  /\ snd (GetElement (mk s) (GetID item)) = present.
Proof.
  intros present. split.
  - unfold GetOne. cbn [queue]. unfold present.
    rewrite <- (removeScan_existsb s item 0).
    destruct (removeScan s item 0); reflexivity.
  - apply getElementLoop_existsb.
Qed.
End FIFOFacts.

(** ** Further properties of the retry scheduler *)

Section SchedulerFacts.
Variable transport : string -> string -> list Byte.byte -> httpClientOption -> roundTrip.
Variable clock : Z.

Lemma formatRetryDuration_positive (attemptCount : Z) :
  inInt64 (RetryDurationFactor * attemptCount) ->
  0 < formatRetryDuration attemptCount.
Proof.
  intros Hfit. unfold formatRetryDuration.
  destruct (Z.ltb_spec attemptCount 3); [reflexivity|].
  rewrite wrap64_inInt64 by assumption. unfold RetryDurationFactor. lia.
Qed.

(** What [afterQueryFailed] does to a sorted queue of pending requests: it
    leaves the scheduler alone, or it puts one entry into the queue, at a
    place that keeps it sorted, and asks for the timer. *)
Lemma afterQueryFailed_cases (method url : string) (body : list Byte.byte)
    (opts : httpClientOption) (st : scheduler) :
  let q := pendingRequestsQueue st in
  let re := {| method := method; url := url; body := body; options := opts;
               triggerTimestamp := wrap64 (clock + formatRetryDuration (retries opts)) |} in
  sortedBy (OrderedQueue.ordering q) (OrderedQueue.queue q) ->
  exists l1 l2,
    OrderedQueue.queue q = l1 ++ l2
    /\ sortedBy (OrderedQueue.ordering q) (l1 ++ re :: l2)
    /\ afterQueryFailed method url body opts clock st
       = Ok (if (shouldRetry opts >? 0) && negb (retries opts >=? shouldRetry opts)
             then {| pendingRequestsQueue :=
                       OrderedQueue.mk (l1 ++ re :: l2) (OrderedQueue.ordering q);
                     pendingRequestsTimer := true |}
             else st).
Proof.
  intros q re Hs.
  destruct (Add_sorted q re Hs) as (l1 & l2 & Hq & _ & _ & Hadd & Hs').
  exists l1, l2. repeat split; try assumption.
  unfold afterQueryFailed.
  destruct (shouldRetry opts >? 0); [|reflexivity].
  destruct (retries opts >=? shouldRetry opts); [reflexivity|]. cbn [andb negb].
  unfold OrderedQueue.Push. fold re. fold q. rewrite Hadd. reflexivity.
Qed.

(** An entry that is not due goes back into the queue. *)
Lemma checkRetryEntity_not_due (re : requestEntity) (now : Z) (st : scheduler) :
  let q := pendingRequestsQueue st in
  now < triggerTimestamp re ->
  sortedBy (OrderedQueue.ordering q) (OrderedQueue.queue q) ->
  exists l1 l2,
    OrderedQueue.queue q = l1 ++ l2
    /\ Forall (fun e => ordered (OrderedQueue.ordering q) e re) l1
    /\ Forall (fun e => triggerTimestamp e <> triggerTimestamp re) l2
    /\ sortedBy (OrderedQueue.ordering q) (l1 ++ re :: l2)
    /\ checkRetryEntity transport clock (Some re) now st
       = Ok (false,
             {| pendingRequestsQueue :=
                  OrderedQueue.mk (l1 ++ re :: l2) (OrderedQueue.ordering q);
                pendingRequestsTimer := pendingRequestsTimer st |}).
Proof.
  intros q Hnot Hs.
  destruct (Add_sorted q re Hs) as (l1 & l2 & Hq & H1 & H2 & Hadd & Hs').
  exists l1, l2. repeat split; try assumption.
  - eapply Forall_impl; [|exact H2]. now intros e [_ He].
  - unfold checkRetryEntity.
    destruct (Z.leb_spec (triggerTimestamp re) now); [lia|].
    unfold OrderedQueue.Push. fold q. rewrite Hadd. reflexivity.
Qed.

(** X14. An entry that is not due yet is put back: [checkRetryEntity] sends
    nothing, returns [false] (which ends the tick) and inserts the entry into
    the sorted queue of pending requests, behind the entries whose trigger
    time is not later than its own; the queue stays sorted. *)
Theorem checkRetryEntity_puts_back (re : requestEntity) (now : Z) (st : scheduler) :
  let q := pendingRequestsQueue st in
  now < triggerTimestamp re ->
  sortedBy (OrderedQueue.ordering q) (OrderedQueue.queue q) ->
  exists l1 l2,
    OrderedQueue.queue q = l1 ++ l2
    /\ Forall (fun e => ordered (OrderedQueue.ordering q) e re) l1
    /\ Forall (fun e => triggerTimestamp e <> triggerTimestamp re) l2
    /\ sortedBy (OrderedQueue.ordering q) (l1 ++ re :: l2)
    /\ checkRetryEntity transport clock (Some re) now st
       = Ok (false,
             {| pendingRequestsQueue :=
                  OrderedQueue.mk (l1 ++ re :: l2) (OrderedQueue.ordering q);
                pendingRequestsTimer := pendingRequestsTimer st |}).
Proof.
  intros q Hnot Hs.
  destruct (Add_sorted q re Hs) as (l1 & l2 & Hq & H1 & H2 & Hadd & Hs').
  exists l1, l2. repeat split; try assumption.
  - eapply Forall_impl; [|exact H2]. now intros e [_ He].
  - unfold checkRetryEntity.
    destruct (Z.leb_spec (triggerTimestamp re) now); [lia|].
    unfold OrderedQueue.Push. fold q. rewrite Hadd. reflexivity.
Qed.

(** X15. The retry budget. When the retry of a due entry fails, the attempt
    count is incremented; if the incremented count is below a positive
    [shouldRetry], an entry for the failed request is enqueued with that
    count and with the clock time plus the delay computed from it as its
    trigger time; otherwise nothing is enqueued and the entry is gone.  In
    both cases [checkRetryEntity] returns [true], and the tick goes on. *)
Theorem failed_retry_budget (re : requestEntity) (now : Z) (st : scheduler)
    (queryURL : string) (bodyBuffer : list Byte.byte) :
  let q := pendingRequestsQueue st in
  let attemptCount := retries (options re) + 1 in
  let again := retriedEntry clock re queryURL bodyBuffer in
  triggerTimestamp re <= now ->
  transport (method re) (url re) (body re)
    (retryOption re defaultHTTPClientJSONOptions) = Failed queryURL bodyBuffer ->
  retryFits clock re ->
  sortedBy (OrderedQueue.ordering q) (OrderedQueue.queue q) ->
  retries (options again) = attemptCount
  /\ shouldRetry (options again) = shouldRetry (options re)
  /\ triggerTimestamp again
     = clock + (if attemptCount <? 3 then RetryDurationFactor
                else RetryDurationFactor * attemptCount)
  /\ exists l1 l2,
       OrderedQueue.queue q = l1 ++ l2
       /\ checkRetryEntity transport clock (Some re) now st
          = Ok (true,
                if (shouldRetry (options re) >? 0)
                   && (attemptCount <? shouldRetry (options re))
                then {| pendingRequestsQueue :=
                          OrderedQueue.mk (l1 ++ again :: l2) (OrderedQueue.ordering q);
                        pendingRequestsTimer := true |}
                else st).
Proof.
  intros q attemptCount again Hdue Hfail (Hcount & Hprod & Hsum) Hs.
  fold attemptCount in Hcount, Hprod, Hsum.
  assert (Hretries : retries (options again) = attemptCount).
  { unfold again, retriedEntry. cbn. now apply wrap64_inInt64. }
  assert (Hdelay : formatRetryDuration attemptCount
                   = if attemptCount <? 3 then RetryDurationFactor
                     else RetryDurationFactor * attemptCount).
  { unfold formatRetryDuration.
    destruct (attemptCount <? 3); [reflexivity | now apply wrap64_inInt64]. }
  split; [assumption|]. split; [reflexivity|]. split.
  { unfold again, retriedEntry. cbn [triggerTimestamp]. fold again.
    change (retries (retryOption re defaultHTTPClientJSONOptions))
      with (retries (options again)).
    now rewrite Hretries, Hdelay. }
  destruct (afterQueryFailed_cases (method re) queryURL bodyBuffer
              (retryOption re defaultHTTPClientJSONOptions) st Hs)
    as (l1 & l2 & Hq & _ & Hafter).
  exists l1, l2. split; [assumption|].
  unfold checkRetryEntity.
  destruct (Z.leb_spec (triggerTimestamp re) now); [|lia].
  unfold HTTPQuery. rewrite Hfail, Hafter. cbn [bind snd].
  change (retries (retryOption re defaultHTTPClientJSONOptions))
    with (retries (options again)).
  change (shouldRetry (retryOption re defaultHTTPClientJSONOptions))
    with (shouldRetry (options re)).
  rewrite Hretries.
  replace (negb (attemptCount >=? shouldRetry (options re)))
    with (attemptCount <? shouldRetry (options re))
    by (destruct (Z.ltb_spec attemptCount (shouldRetry (options re))),
          (Z.geb_spec attemptCount (shouldRetry (options re))); try lia; reflexivity).
  rewrite wrap64_inInt64 by assumption.
  assert (Hagain : again
                   = {| method := method re; url := queryURL; body := bodyBuffer;
                        options := retryOption re defaultHTTPClientJSONOptions;
                        triggerTimestamp := clock + formatRetryDuration attemptCount |}).
  { unfold again, retriedEntry. cbv zeta. f_equal. f_equal. f_equal.
    cbn. now apply wrap64_inInt64. }
  rewrite Hagain. reflexivity.
Qed.

End SchedulerFacts.

(** *** A whole tick *)

(** With the same outcome of sending and the same time in every round,
    [tickRounds] is [tickLoop]. *)
Lemma tickRounds_constant
    (transport : string -> string -> list Byte.byte -> httpClientOption -> roundTrip)
    (clock : Z) (now : Z) (fuel : nat) :
  forall round st,
    tickRounds (fun _ => transport) (fun _ => clock) fuel round now st
    = tickLoop transport clock fuel now st.
Proof.
  induction fuel as [|fuel IH]; intros round st; [reflexivity|].
  cbn [tickRounds tickLoop].
  destruct (OrderedQueue.Pop (pendingRequestsQueue st)) as [[[item ok] q]| |];
    cbn [bind fst snd]; try reflexivity.
  destruct ok; [|reflexivity].
  destruct (checkRetryEntity transport clock item now _) as [[again st']| |];
    cbn [bind fst snd]; try reflexivity.
  destruct again; [apply IH | reflexivity].
Qed.

Section TickFacts.
Variable transportOf :
  nat -> string -> string -> list Byte.byte -> httpClientOption -> roundTrip.
Variable clockOf : nat -> Z.
Hypothesis transport_returns :
  forall round m u b o, transportOf round m u b o <> Panicked.


Lemma filter_all {A : Type} (f : A -> bool) (l : list A) :
  Forall (fun x => f x = true) l -> filter f l = l.
Proof.
  induction 1 as [|x l Hx Hl IH]; simpl; [reflexivity|]. now rewrite Hx, IH.
Qed.

Lemma dueCount_insert (now : Z) (e : requestEntity) (l1 l2 : list requestEntity) :
  due now e = false ->
  List.length (filter (due now) (l1 ++ e :: l2))
  = List.length (filter (due now) (l1 ++ l2)).
Proof.
  intros He. rewrite !filter_app. cbn [filter]. now rewrite He.
Qed.

(** The loop of a tick, from any round and any sorted ascending queue whose
    due entries can be retried within the 64-bit integers at the time of
    every round, when no round reads a time before the tick: it ends before
    its fuel, which exceeds the number of due entries, runs out. *)
Lemma tickRounds_settles (now : Z) (fuel : nat) :
  (forall round, now <= clockOf round) ->
  forall round st,
    OrderedQueue.ordering (pendingRequestsQueue st) = OrderingAsc ->
    sortedBy OrderingAsc (OrderedQueue.queue (pendingRequestsQueue st)) ->
    Forall (fun e => due now e = true -> forall i, retryFits (clockOf i) e)
           (OrderedQueue.queue (pendingRequestsQueue st)) ->
    (List.length (filter (due now) (OrderedQueue.queue (pendingRequestsQueue st))) < fuel)%nat ->
    exists st',
      tickRounds transportOf clockOf fuel round now st = Ok st'
      /\ OrderedQueue.ordering (pendingRequestsQueue st') = OrderingAsc
      /\ sortedBy OrderingAsc (OrderedQueue.queue (pendingRequestsQueue st'))
      /\ Forall (fun e => due now e = false) (OrderedQueue.queue (pendingRequestsQueue st'))
      /\ (forall e, In e (OrderedQueue.queue (pendingRequestsQueue st)) ->
                    due now e = false ->
                    In e (OrderedQueue.queue (pendingRequestsQueue st')))
      /\ ((forall i m u b o queryURL bodyBuffer,
              transportOf i m u b o <> Failed queryURL bodyBuffer) ->
          Permutation (OrderedQueue.queue (pendingRequestsQueue st'))
                      (filter (fun e => negb (due now e))
                              (OrderedQueue.queue (pendingRequestsQueue st)))).
Proof.
  intros Hclock.
  induction fuel as [|fuel IH]; intros round [[s mode] timer] Hmode Hs Hfits Hfuel;
    cbn [pendingRequestsQueue OrderedQueue.queue OrderedQueue.ordering] in *; [lia|].
  subst mode. destruct s as [|re rest].
  { eexists. split; [reflexivity|]. cbn.
    repeat split; auto; constructor. }
  cbn [tickRounds pendingRequestsQueue pendingRequestsTimer].
  rewrite Pop_cons. cbn [bind fst snd].
  pose proof Hs as Hsorted.
  apply StronglySorted_inv in Hs as [Hrest Hfront].
  apply Forall_cons_iff in Hfits as [Hfit Hfits].
  set (st1 := {| pendingRequestsQueue := OrderedQueue.mk rest OrderingAsc;
                 pendingRequestsTimer := timer |}).
  assert (Hcontinue :
    (List.length (filter (due now) rest) < fuel)%nat ->
    exists st',
      tickRounds transportOf clockOf fuel (S round) now st1 = Ok st'
      /\ OrderedQueue.ordering (pendingRequestsQueue st') = OrderingAsc
      /\ sortedBy OrderingAsc (OrderedQueue.queue (pendingRequestsQueue st'))
      /\ Forall (fun e => due now e = false) (OrderedQueue.queue (pendingRequestsQueue st'))
      /\ (forall e, In e rest -> due now e = false ->
                    In e (OrderedQueue.queue (pendingRequestsQueue st')))
      /\ ((forall i m u b o queryURL bodyBuffer,
              transportOf i m u b o <> Failed queryURL bodyBuffer) ->
          Permutation (OrderedQueue.queue (pendingRequestsQueue st'))
                      (filter (fun e => negb (due now e)) rest)))
    by (intros Hlt; apply (IH (S round) st1); assumption || reflexivity).
  destruct (due now re) eqn:Hdue.
  - (* the front entry is due: it is sent again *)
    cbn [filter] in Hfuel. rewrite Hdue in Hfuel. cbn [List.length] in Hfuel.
    assert (Hskip :
      forall st', (forall e, In e rest -> due now e = false ->
                             In e (OrderedQueue.queue (pendingRequestsQueue st'))) ->
                  forall e, In e (re :: rest) -> due now e = false ->
                            In e (OrderedQueue.queue (pendingRequestsQueue st'))).
    { intros st' Hkeep e [<-|He] Hnot; [congruence | now apply Hkeep]. }
    unfold checkRetryEntity. unfold due in Hdue. rewrite Hdue.
    unfold HTTPQuery.
    destruct (transportOf round (method re) (url re) (body re)
                (retryOption re defaultHTTPClientJSONOptions)) as [| queryURL bodyBuffer | |] eqn:Hsend.
    + cbn [bind fst snd].
      destruct Hcontinue as (st' & Hrun & Ho & Hsrt & Hnone & Hkeep & Hperm); [lia|].
      exists st'. repeat split; try assumption; [now apply Hskip|].
      intros Hnofail. cbn [filter]. fold (due now re). unfold due at 1.
      rewrite Hdue. cbn [negb]. now apply Hperm.
    + (* the retry failed *)
      destruct (afterQueryFailed_cases (clockOf round) (method re) queryURL bodyBuffer
                  (retryOption re defaultHTTPClientJSONOptions) st1 Hrest)
        as (l1 & l2 & Hq & Hs' & Hafter).
      cbn [st1 pendingRequestsQueue OrderedQueue.queue OrderedQueue.ordering] in Hq, Hs', Hafter.
      rewrite Hafter. cbn [bind fst snd].
      destruct ((shouldRetry (retryOption re defaultHTTPClientJSONOptions) >? 0)
                && negb (retries (retryOption re defaultHTTPClientJSONOptions)
                         >=? shouldRetry (retryOption re defaultHTTPClientJSONOptions))).
      * destruct (Hfit eq_refl round) as (Hcount & Hprod & Hsum).
        pose proof (Hclock round) as Hlate.
        set (again := {| method := method re; url := queryURL; body := bodyBuffer;
                         options := retryOption re defaultHTTPClientJSONOptions;
                         triggerTimestamp :=
                           wrap64 (clockOf round
                                   + formatRetryDuration
                                       (retries (retryOption re defaultHTTPClientJSONOptions))) |}) in *.
        assert (Hlater : due now again = false).
        { unfold due, again. cbn [triggerTimestamp retryOption retries].
          rewrite (wrap64_inInt64 _ Hcount), (wrap64_inInt64 _ Hsum).
          pose proof (formatRetryDuration_positive _ Hprod).
          destruct (Z.leb_spec (clockOf round
                                + formatRetryDuration (retries (options re) + 1)) now);
            [lia | reflexivity]. }
        destruct (IH (S round)
                     {| pendingRequestsQueue := OrderedQueue.mk (l1 ++ again :: l2) OrderingAsc;
                        pendingRequestsTimer := true |})
          as (st' & Hrun & Ho & Hsrt & Hnone & Hkeep & Hperm);
          cbn [pendingRequestsQueue OrderedQueue.queue OrderedQueue.ordering].
        -- reflexivity.
        -- assumption.
        -- rewrite Hq in Hfits. apply Forall_app in Hfits as [Hf1 Hf2].
           apply Forall_app. split; [assumption|].
           constructor; [congruence | assumption].
        -- rewrite dueCount_insert by assumption. rewrite <- Hq. lia.
        -- exists st'. repeat split; try assumption.
           ++ apply Hskip. intros e He Hnot. apply Hkeep; [|assumption].
              cbn [pendingRequestsQueue OrderedQueue.queue].
              rewrite Hq in He. apply in_app_or in He as [He|He];
                apply in_or_app; [left | right; right]; assumption.
           ++ intros Hnofail. exfalso. exact (Hnofail _ _ _ _ _ _ _ Hsend).
      * destruct Hcontinue as (st' & Hrun & Ho & Hsrt & Hnone & Hkeep & Hperm); [lia|].
        exists st'. repeat split; try assumption; [now apply Hskip|].
        intros Hnofail. exfalso. exact (Hnofail _ _ _ _ _ _ _ Hsend).
    + cbn [bind fst snd].
      destruct Hcontinue as (st' & Hrun & Ho & Hsrt & Hnone & Hkeep & Hperm); [lia|].
      exists st'. repeat split; try assumption; [now apply Hskip|].
      intros Hnofail. cbn [filter]. fold (due now re). unfold due at 1.
      rewrite Hdue. cbn [negb]. now apply Hperm.
    + exfalso. exact (transport_returns _ _ _ _ _ Hsend).
  - (* the front entry is not due: it is put back and the tick ends *)
    assert (Hnot : now < triggerTimestamp re)
      by (unfold due in Hdue; destruct (Z.leb_spec (triggerTimestamp re) now); [discriminate | lia]).
    destruct (checkRetryEntity_not_due (transportOf round) (clockOf round) re now st1 Hnot Hrest)
      as (l1 & l2 & Hq & _ & _ & Hs' & Hcheck).
    cbn [st1 pendingRequestsQueue OrderedQueue.queue OrderedQueue.ordering
         pendingRequestsTimer] in Hq, Hs', Hcheck.
    rewrite Hcheck. cbn [bind fst snd].
    eexists. split; [reflexivity|].
    cbn [pendingRequestsQueue OrderedQueue.queue OrderedQueue.ordering].
    assert (Hall : Forall (fun e => due now e = false) (re :: rest)).
    { constructor; [assumption|].
      eapply Forall_impl; [|exact Hfront]. intros e He. simpl in He.
      unfold due. destruct (Z.leb_spec (triggerTimestamp e) now); [|reflexivity].
      cbn in He. lia. }
    assert (Hperm : Permutation (l1 ++ re :: l2) (re :: rest))
      by (rewrite Hq; apply Permutation_sym, Permutation_middle).
    repeat split; try assumption.
    + eapply Permutation_Forall; [apply Permutation_sym; exact Hperm | exact Hall].
    + intros e He _. eapply Permutation_in; [apply Permutation_sym; exact Hperm | exact He].
    + intros _. rewrite filter_all; [exact Hperm|].
      eapply Forall_impl; [|exact Hall]. intros e He. now rewrite He.
Qed.

(** X16. A tick settles the queue of pending requests, whatever the rounds
    of its loop meet: each round has its own outcome of sending, and a round
    whose retry fails reads the time anew.  Take a sorted ascending queue, a
    tick at time [now] during which nothing else touches the queue, rounds
    none of which reads a time before [now] and none of whose retry actions
    panics, and let every due entry of the queue be one that can be retried
    within the 64-bit integers at the time of any round.  Then the loop of
    the tick ends within one more round than the queue has entries;
    afterwards the queue is sorted and holds no due entry, and every entry
    that was not due is still there.  If moreover no retry fails, the queue
    holds exactly the entries that were not due. *)
Theorem tick_settles_queue (now : Z) (st : scheduler) :
  let q := pendingRequestsQueue st in
  (forall round, now <= clockOf round) ->
  OrderedQueue.ordering q = OrderingAsc ->
  sortedBy OrderingAsc (OrderedQueue.queue q) ->
  Forall (fun e => due now e = true -> forall round, retryFits (clockOf round) e)
         (OrderedQueue.queue q) ->
  exists st',
    tickRounds transportOf clockOf (S (List.length (OrderedQueue.queue q))) 0 now st = Ok st'
    /\ sortedBy OrderingAsc (OrderedQueue.queue (pendingRequestsQueue st'))
    /\ Forall (fun e => now < triggerTimestamp e)
              (OrderedQueue.queue (pendingRequestsQueue st'))
    /\ (forall e, In e (OrderedQueue.queue q) -> now < triggerTimestamp e ->
                  In e (OrderedQueue.queue (pendingRequestsQueue st')))
    /\ ((forall round m u b o queryURL bodyBuffer,
            transportOf round m u b o <> Failed queryURL bodyBuffer) ->
        Permutation (OrderedQueue.queue (pendingRequestsQueue st'))
                    (filter (fun e => negb (due now e)) (OrderedQueue.queue q))).
Proof.
  intros q Hclock Hmode Hs Hfits.
  destruct (tickRounds_settles now (S (List.length (OrderedQueue.queue q))) Hclock 0%nat st
              Hmode Hs Hfits) as (st' & Hrun & _ & Hsrt & Hnone & Hkeep & Hperm).
  { pose proof (filter_length_le (due now) (OrderedQueue.queue q)). fold q. lia. }
  exists st'. repeat split; try assumption.
  - eapply Forall_impl; [|exact Hnone]. intros e He. unfold due in He.
    destruct (Z.leb_spec (triggerTimestamp e) now); [discriminate | lia].
  - intros e He Hnot. apply Hkeep; [assumption|]. unfold due.
    destruct (Z.leb_spec (triggerTimestamp e) now); [lia | reflexivity].
Qed.
End TickFacts.

Ltac sorted_entries :=
  unfold sortedBy;
  repeat (apply SSorted_cons;
          [|repeat (apply Forall_cons; [cbn; lia|]); apply Forall_nil]);
  apply SSorted_nil.

Lemma checkRetryEntity_puts_back_witness :
  let st := {| pendingRequestsQueue :=
                 OrderedQueue.mk [entry "b" 7; entry "c" 10; entry "d" 12] OrderingAsc;
               pendingRequestsTimer := true |} in
  let re := entry "a" 10 in
  exists l1 l2,
    [entry "b" 7; entry "c" 10; entry "d" 12] = l1 ++ l2
    /\ Forall (fun e => ordered OrderingAsc e re) l1
    /\ Forall (fun e => triggerTimestamp e <> triggerTimestamp re) l2
    /\ sortedBy OrderingAsc (l1 ++ re :: l2)
    /\ checkRetryEntity (fun _ _ _ _ => Responded) 5 (Some re) 5 st
       = Ok (false,
             {| pendingRequestsQueue := OrderedQueue.mk (l1 ++ re :: l2) OrderingAsc;
                pendingRequestsTimer := true |}).
Proof.
  intros st re.
  apply (checkRetryEntity_puts_back (fun _ _ _ _ => Responded) 5 re 5 st);
    [cbn; lia | sorted_entries].
Defined.

Lemma failed_retry_budget_witness :
  let opts := {| headers := []; tlsOptions := None; proxies := None; timeouts := 0;
                 retries := 2; shouldRetry := 4; successStatus := [] |} in
  let re := {| method := "POST"; url := "a"; body := []; options := opts;
               triggerTimestamp := 3 |} in
  let again := retriedEntry 6 re "a" [] in
  retries (options again) = 3
  /\ shouldRetry (options again) = 4
  /\ triggerTimestamp again = 6 + 15
  /\ exists l1 l2,
       [] = l1 ++ l2
       /\ checkRetryEntity (fun _ u b _ => Failed u b) 6 (Some re) 5 newScheduler
          = Ok (true,
                {| pendingRequestsQueue := OrderedQueue.mk (l1 ++ again :: l2) OrderingAsc;
                   pendingRequestsTimer := true |}).
Proof.
  intros opts re again.
  apply (failed_retry_budget (fun _ u b _ => Failed u b) 6 re 5 newScheduler "a" []).
  - cbn. lia.
  - reflexivity.
  - unfold retryFits, inInt64, max_int64. cbn. lia.
  - sorted_entries.
Defined.

Lemma tick_settles_queue_witness :
  let opts := {| headers := []; tlsOptions := None; proxies := None; timeouts := 0;
                 retries := 0; shouldRetry := 4; successStatus := [] |} in
  let pending := fun (u : string) (ts : Z) => {| method := "POST"; url := u; body := []; options := opts;
                                triggerTimestamp := ts |} in
  let st := {| pendingRequestsQueue :=
                 OrderedQueue.mk [pending "a"%string 1; pending "b"%string 4; pending "c"%string 9;
                                  pending "d"%string 9]
                                 OrderingAsc;
               pendingRequestsTimer := true |} in
  let transportOf := fun (round : nat) (_ u : string) (b : list Byte.byte)
                         (_ : httpClientOption) => Failed u b in
  let clockOf := fun round : nat => 5 + 2 * Z.of_nat (Nat.min round 3) in
  exists st',
    tickRounds transportOf clockOf 5 0 5 st = Ok st'
    /\ sortedBy OrderingAsc (OrderedQueue.queue (pendingRequestsQueue st'))
    /\ Forall (fun e => 5 < triggerTimestamp e)
              (OrderedQueue.queue (pendingRequestsQueue st'))
    /\ map (fun e => (url e, triggerTimestamp e, retries (options e)))
           (OrderedQueue.queue (pendingRequestsQueue st'))
       = [("d"%string, 9, 0); ("c"%string, 9, 0); ("a"%string, 10, 1); ("b"%string, 12, 1)].
Proof.
  intros opts pending st transportOf clockOf.
  destruct (tick_settles_queue transportOf clockOf
              (fun _ _ _ _ _ => ltac:(discriminate)) 5 st)
    as (st' & Hrun & Hsorted & Hlater & _ & _).
  - intros round. unfold clockOf. lia.
  - reflexivity.
  - sorted_entries.
  - repeat (apply Forall_cons;
            [intros _ round;
             unfold retryFits, inInt64, max_int64, clockOf;
             cbn [pending opts options retries];
             change (formatRetryDuration (0 + 1)) with 5;
             change RetryDurationFactor with 5; lia|]).
    apply Forall_nil.
  - exists st'. split; [exact Hrun|]. split; [exact Hsorted|]. split; [exact Hlater|].
    vm_compute in Hrun. injection Hrun as <-. reflexivity.
Defined.

(** ** The registry of Kafka workers *)

Section KafkaFacts.
Import Kafka.
Variable KafkaWorker : Type.
Variable newWorker : Config -> KafkaWorker.
Variable stopConsumer : KafkaWorker -> result unit.

Lemma store_same (name : string) (w : KafkaWorker) (m : instances KafkaWorker) :
  store KafkaWorker name w m name = Some w.
Proof. unfold store. now rewrite String.eqb_refl. Qed.

Lemma store_other (name other : string) (w : KafkaWorker) (m : instances KafkaWorker) :
  other <> name -> store KafkaWorker name w m other = m other.
Proof.
  intros Hne. unfold store.
  destruct (String.eqb_spec name other); [congruence | reflexivity].
Qed.

(** X17. [InitKafka] registers a worker once per connection name.  Under a
    name that is not registered it builds the worker from the configuration
    it has prepared and registers it, so that [GetKafka] returns that worker
    without an error; a further [InitKafka] under the name, whatever its
    configuration, returns the registered worker and leaves the registry as it
    is; and the other names keep what they had. *)
Theorem InitKafka_registers_once (mqConnName : string) (config config' : Config)
    (uuidTopic uuidGroup : string) (kafkaInstances : instances KafkaWorker) :
  kafkaInstances mqConnName = None ->
  prepareConfig config uuidTopic uuidGroup = Ok config' ->
  exists registered,
    InitKafka KafkaWorker newWorker mqConnName config uuidTopic uuidGroup kafkaInstances
    = Ok ((Some (newWorker config'), None), registered)
    /\ GetKafka KafkaWorker mqConnName registered = (Some (newWorker config'), None)
    /\ (forall config2 uuid1 uuid2,
           InitKafka KafkaWorker newWorker mqConnName config2 uuid1 uuid2 registered
           = Ok ((Some (newWorker config'), None), registered))
    /\ (forall other, other <> mqConnName ->
                      GetKafka KafkaWorker other registered
                      = GetKafka KafkaWorker other kafkaInstances).
Proof.
  intros Hfree Hprepared.
  exists (store KafkaWorker mqConnName (newWorker config') kafkaInstances).
  repeat split.
  - unfold InitKafka. now rewrite Hfree, Hprepared.
  - unfold GetKafka. now rewrite store_same.
  - intros config2 uuid1 uuid2. unfold InitKafka. now rewrite store_same.
  - intros other Hother. unfold GetKafka. now rewrite store_other.
Qed.

(** X18. [StopKafka] returns the error [Kafka instance by ... not found] in
    every case in which it returns, also when it has found the worker and
    stopped its consumer.  Afterwards the name is not registered, so that
    [GetKafka] fails with that error, and the other names keep what they
    had. *)
Theorem StopKafka_always_errors (mqConnName : string)
    (kafkaInstances : instances KafkaWorker)
    (err : option string) (remaining : instances KafkaWorker) :
  StopKafka KafkaWorker stopConsumer mqConnName kafkaInstances = Ok (err, remaining) ->
  err = Some (notFound mqConnName)
  /\ GetKafka KafkaWorker mqConnName remaining = (None, Some (notFound mqConnName))
  /\ (forall other, other <> mqConnName -> remaining other = kafkaInstances other).
Proof.
  unfold StopKafka, GetKafka.
  destruct (kafkaInstances mqConnName) as [instance|] eqn:Hfound.
  - destruct (stopConsumer instance) as [[]| |]; cbn [bind]; try discriminate.
    intros [= <- <-]. repeat split.
    + unfold delete. now rewrite String.eqb_refl.
    + intros other Hother. unfold delete.
      destruct (String.eqb_spec mqConnName other); [congruence | reflexivity].
  - intros [= <- <-]. rewrite Hfound. repeat split.
Qed.
End KafkaFacts.

Lemma InitKafka_registers_once_witness :
  let prepared := Kafka.withTopicAndGroup (sampleConfig "orders" "direct")
                    "orders-0123456789" "g" in
  exists registered,
    Kafka.InitKafka Kafka.Config (fun c => c) "main" (sampleConfig "orders" "direct")
      "0123456789abcdef" "fedcba9876543210" (Kafka.noInstances Kafka.Config)
    = Ok ((Some prepared, None), registered)
    /\ Kafka.GetKafka Kafka.Config "main" registered = (Some prepared, None)
    /\ (forall config2 uuid1 uuid2,
           Kafka.InitKafka Kafka.Config (fun c => c) "main" config2 uuid1 uuid2 registered
           = Ok ((Some prepared, None), registered))
    /\ (forall other, other <> "main"%string ->
                      Kafka.GetKafka Kafka.Config other registered
                      = Kafka.GetKafka Kafka.Config other (Kafka.noInstances Kafka.Config)).
Proof.
  intros prepared.
  apply (InitKafka_registers_once Kafka.Config (fun c => c) "main"
           (sampleConfig "orders" "direct") prepared
           "0123456789abcdef" "fedcba9876543210" (Kafka.noInstances Kafka.Config));
    reflexivity.
Defined.

Lemma StopKafka_always_errors_witness :
  let registry := Kafka.store Kafka.Config "main" (sampleConfig "orders" "direct")
                    (Kafka.noInstances Kafka.Config) in
  Some (Kafka.notFound "main") = Some (Kafka.notFound "main")
  /\ Kafka.GetKafka Kafka.Config "main" (Kafka.delete Kafka.Config "main" registry)
     = (None, Some (Kafka.notFound "main"))
  /\ (forall other, other <> "main"%string ->
                    Kafka.delete Kafka.Config "main" registry other = registry other).
Proof.
  intros registry.
  apply (StopKafka_always_errors Kafka.Config (fun _ => Ok tt) "main" registry).
  reflexivity.
Defined.
